(** * URL shortener: short-code lifecycle engine

    A shallow embedding of the TypeScript sources
    - [src/utils/validation.ts]        (the three validators),
    - [src/utils/shortcodeGenerator.ts] (candidate codes, retry and escalation),
    - [src/utils/clickSimulator.ts]     (click events),
    - [src/utils/dataStore.ts]          (the record store over localStorage),
    - [src/components/UrlForm.tsx]      (the submission flow [handleSubmit]),
    - [src/components/RedirectPage.tsx] (the resolver [handleRedirect]),
    followed by the properties of the specification that concern them.

    Conventions of the embedding.
    - JavaScript strings are [string]s over 8-bit code units; numbers that the
      program only ever uses as integers (timestamps, minutes, counters) are [Z]
      or [nat].
    - [Date.now()] and [Math.random()] are effects: the world carries how many
      times each was called, and two oracles give the value of the k-th call.
      [Math.floor(Math.random() * n)] is the k-th sample reduced into [0, n).
    - [localStorage] is the entry at the key [shortened_urls]; [setItem] may
      be refused by the browser (quota), which raises [QuotaExceededError].
    - Exceptions are explicit: a computation returns a value or throws.
    - The logger never touches the key [shortened_urls].  The first parts
      give the program as it runs while the calls of the logger complete:
      its calls, and the readings of the clock it makes for its own entries,
      are left out there.  The part "The store and the resolver with their
      logger" puts the calls back, with the entries that parse to something
      else than an array of records, and relates the two.
    - [RegExp.prototype.test] on the two anchored patterns of the validators
      is membership in the pattern's language. *)

From Stdlib Require Import ZArith Ascii String Lia.
From stdpp Require Import base option list strings pretty gmap.
From Equations Require Import Equations.

Local Open Scope Z_scope.

(** ** Strings as the program uses them *)

Module Js.

(** [s.startsWith(p)] *)
Fixpoint startsWith (p s : string) : bool :=
  match p, s with
  | EmptyString, _ => true
  | String a p', String b s' => if decide (a = b) then startsWith p' s' else false
  | String _ _, EmptyString => false
  end.

(** White space in the sense of [String.prototype.trim], among 8-bit code
    units: TAB, LF, VT, FF, CR, SPACE and NBSP. *)
Definition is_space (c : ascii) : bool :=
  let n := nat_of_ascii c in
  ((9 <=? n)%nat && (n <=? 13)%nat) || (n =? 32)%nat || (n =? 160)%nat.

Fixpoint trimStart (s : string) : string :=
  match s with
  | String c s' => if is_space c then trimStart s' else s
  | EmptyString => EmptyString
  end.

Fixpoint trimEnd (s : string) : string :=
  match s with
  | String c s' =>
      match trimEnd s' with
      | EmptyString => if is_space c then EmptyString else String c EmptyString
      | t => String c t
      end
  | EmptyString => EmptyString
  end.

(** [s.trim()] *)
Definition trim (s : string) : string := trimEnd (trimStart s).

(** Truthiness of a string: only the empty string is falsy. *)
Definition truthy (s : string) : bool :=
  match s with EmptyString => false | String _ _ => true end.

(** [chars.charAt(i)]: the one-character string at [i], or the empty string
    when [i] is out of range. *)
Definition charAt (s : string) (i : nat) : string :=
  match String.get i s with
  | Some c => String c EmptyString
  | None => EmptyString
  end.

End Js.

(** ** Regular expressions: [RegExp.prototype.test] on anchored patterns

    Both patterns of the validators are anchored ([^...$], no flags), so
    [test] decides membership of the whole string in the pattern's language.
    Membership is computed with Brzozowski derivatives. *)

Module RegExp.

Inductive t : Type :=
| Never
| Empty
| Class (p : ascii -> bool)
| Seq (r s : t)
| Alt (r s : t)
| Star (r : t).

Fixpoint nullable (r : t) : bool :=
  match r with
  | Never => false
  | Empty => true
  | Class _ => false
  | Seq r s => nullable r && nullable s
  | Alt r s => nullable r || nullable s
  | Star _ => true
  end.

Definition seq (r s : t) : t :=
  match r, s with
  | Never, _ => Never
  | _, Never => Never
  | Empty, _ => s
  | _, _ => Seq r s
  end.

Definition alt (r s : t) : t :=
  match r, s with
  | Never, _ => s
  | _, Never => r
  | _, _ => Alt r s
  end.

Fixpoint deriv (a : ascii) (r : t) : t :=
  match r with
  | Never => Never
  | Empty => Never
  | Class p => if p a then Empty else Never
  | Seq r s => alt (seq (deriv a r) s) (if nullable r then deriv a s else Never)
  | Alt r s => alt (deriv a r) (deriv a s)
  | Star r => seq (deriv a r) (Star r)
  end.

(** [/^r$/.test(s)] *)
Fixpoint test (r : t) (s : string) : bool :=
  match s with
  | EmptyString => nullable r
  | String a s' => test (deriv a r) s'
  end.

(** Derived forms: [r?], [r+], [r{lo,lo+extra}], a literal, a character range. *)
Definition opt (r : t) : t := Alt r Empty.
Definition plus (r : t) : t := Seq r (Star r).

Fixpoint upto (extra : nat) (r : t) : t :=
  match extra with
  | O => Empty
  | S k => opt (Seq r (upto k r))
  end.

Fixpoint exactly (n : nat) (r : t) : t :=
  match n with
  | O => Empty
  | S k => Seq r (exactly k r)
  end.

Definition times (lo extra : nat) (r : t) : t := Seq (exactly lo r) (upto extra r).


Definition only (c : ascii) (a : ascii) : bool := bool_decide (a = c).

Definition chr (c : ascii) : t := Class (only c).

Fixpoint lit (s : string) : t :=
  match s with
  | EmptyString => Empty
  | String c s' => Seq (chr c) (lit s')
  end.

Definition range (lo hi : ascii) (a : ascii) : bool :=
  (nat_of_ascii lo <=? nat_of_ascii a)%nat && (nat_of_ascii a <=? nat_of_ascii hi)%nat.


(** [\d] and [\w] *)
Definition digit : ascii -> bool := range "0" "9".
Definition word (a : ascii) : bool :=
  range "a" "z" a || range "A" "Z" a || digit a || only "_" a.

End RegExp.

(** ** Data model ([src/types/index.ts]) *)

Record ClickEvent : Type := mkClickEvent {
  timestamp : Z;
  source : string;
  geo : string
}.

Module ShortenedUrl.
Record t : Type := mk {
  id : string;
  originalUrl : string;
  shortCode : string;
  creationDate : Z;
  expiryDate : option Z;   (* [number | null] *)
  clicks : list ClickEvent
}.
End ShortenedUrl.
Abbreviation ShortenedUrl := ShortenedUrl.t.

Module UrlFormData.
Record t : Type := mk {
  originalUrl : string;
  validityPeriod : Z;
  preferredShortcode : string
}.
End UrlFormData.
Abbreviation UrlFormData := UrlFormData.t.

#[global] Instance ClickEvent_eq_dec : EqDecision ClickEvent.
Proof. solve_decision. Defined.

#[global] Instance ShortenedUrl_eq_dec : EqDecision ShortenedUrl.
Proof. solve_decision. Defined.

(** ** Validators ([src/utils/validation.ts]) *)

Record ValidationResult : Type := mkValidationResult {
  isValid : bool;
  message : string
}.

Module Validation.
Import RegExp.

(** The classes "[\da-z\.-]", "[a-z\.]" and "[\/\w \.-]" *)
Definition host_char (a : ascii) : bool :=
  digit a || range "a" "z" a || only "." a || only "-" a.
Definition tld_char (a : ascii) : bool :=
  range "a" "z" a || only "." a.
Definition path_char (a : ascii) : bool :=
  only "/" a || word a || only " " a || only "." a || only "-" a.

(** The pattern "/^(https?:\/\/)?([\da-z\.-]+)\.([a-z\.]{2,6})G*\/?$/", where G
    is the parenthesised group around the starred class "[\/\w \.-]*". *)
Definition urlPattern : RegExp.t :=
  Seq (opt (Seq (lit "http") (Seq (opt (chr "s")) (lit "://"))))
 (Seq (plus (Class host_char))
 (Seq (chr ".")
 (Seq (times 2 4 (Class tld_char))
 (Seq (Star (Star (Class path_char)))
      (opt (chr "/")))))).

(** The pattern "/^[a-zA-Z0-9]+$/" *)
Definition alnum (a : ascii) : bool :=
  range "a" "z" a || range "A" "Z" a || digit a.
Definition shortcodePattern : RegExp.t := plus (Class alnum).

Definition validateUrl (url : string) : ValidationResult :=
  if negb (Js.truthy (Js.trim url)) then
    mkValidationResult false "URL is required"
  else if negb (RegExp.test urlPattern url) then
    mkValidationResult false "Please enter a valid URL"
  else
    mkValidationResult true EmptyString.

Definition validateValidityPeriod (period : Z) : ValidationResult :=
  if period <=? 0 then
    mkValidationResult false "Validity period must be positive"
  else if period >? 525600 then
    mkValidationResult false "Validity period cannot exceed 1 year"
  else
    mkValidationResult true EmptyString.

Definition validateShortcode (shortcode : string) : ValidationResult :=
  if negb (Js.truthy (Js.trim shortcode)) then
    mkValidationResult true EmptyString
  else if negb (RegExp.test shortcodePattern shortcode) then
    mkValidationResult false "Shortcode must contain only letters and numbers"
  else if (String.length shortcode <? 4)%nat || (10 <? String.length shortcode)%nat then
    mkValidationResult false "Shortcode must be 4-10 characters long"
  else
    mkValidationResult true EmptyString.

End Validation.

(** ** The world: storage, clock and random source *)

(** What [localStorage] holds at the key [shortened_urls], told apart by what
    [JSON.parse] makes of the text: a text it rejects with a [SyntaxError], or
    the text [JSON.stringify] wrote for an array of records, which it reads
    back as that array.  (A text that parses to a value of another shape is
    outside the type [ShortenedUrl[]] the store declares for what it reads;
    the part "The store and the resolver with their logger" has it.) *)
Inductive Item : Type :=
| Corrupt (text : string)
| Encoded (urls : list ShortenedUrl).

Record World : Type := mkWorld {
  localStorage : option Item;   (* [None]: no entry at the key *)
  now_calls : nat;              (* calls of [Date.now()] so far *)
  random_calls : nat;           (* calls of [Math.random()] so far *)
  setItem_calls : nat           (* calls of [localStorage.setItem] so far *)
}.

Inductive Error : Type :=
| SyntaxError
| QuotaExceededError.

Inductive Outcome (A : Type) : Type :=
| Returned (a : A)
| Thrown (e : Error).
Arguments Returned {A} a.
Arguments Thrown {A} e.

(** A computation of the program: it reads and writes the world, and returns
    or throws. *)
Definition Eff (A : Type) : Type := World -> Outcome A * World.

Definition ret {A} (a : A) : Eff A := fun w => (Returned a, w).

Definition throw {A} (e : Error) : Eff A := fun w => (Thrown e, w).

Definition bind {A B} (m : Eff A) (k : A -> Eff B) : Eff B :=
  fun w =>
    match m w with
    | (Returned a, w') => k a w'
    | (Thrown e, w') => (Thrown e, w')
    end.

(** [try { m } catch (error) { h error }] *)
Definition try_catch {A} (m : Eff A) (h : Error -> Eff A) : Eff A :=
  fun w =>
    match m w with
    | (Returned a, w') => (Returned a, w')
    | (Thrown e, w') => h e w'
    end.

(** A computation that cannot throw, run inside [Eff]. *)
Definition lift {A} (f : World -> A * World) : Eff A :=
  fun w => let '(a, w') := f w in (Returned a, w').

Declare Scope eff_scope.
Delimit Scope eff_scope with eff.
Notation "x <- m ;; k" := (bind m (fun x => k))
  (at level 20, m at level 99, k at level 200, only parsing) : eff_scope.

Lemma string_length_app (s t : string) :
  String.length (s +:+ t) = (String.length s + String.length t)%nat.
Proof. induction s as [|c s IH]; simpl; [reflexivity|]. now rewrite IH. Qed.

Lemma string_get_lt (s : string) (i : nat) :
  (i < String.length s)%nat -> exists c, String.get i s = Some c.
Proof.
  revert i. induction s as [|c s IH]; intros i Hi; simpl in *; [lia|].
  destruct i as [|i]; [eauto|]. apply IH. lia.
Qed.

Lemma string_get_Some (s : string) (i : nat) (c : ascii) :
  String.get i s = Some c -> c ∈ list_ascii_of_string s.
Proof.
  revert i. induction s as [|d s IH]; intros i; simpl; [discriminate|].
  destruct i as [|i].
  - intros [= ->]. left.
  - intros H. right. eauto.
Qed.

Definition inspect {A} (a : A) : {b : A | a = b} := exist _ a eq_refl.

(** The longest code of an exclusion list: past it, no candidate collides. *)
Definition longest (codes : list string) : nat :=
  foldr (fun c n => Nat.max (String.length c) n) O codes.

(** [existingCodes.includes(shortcode)] *)
Definition includes (existingCodes : list string) (shortcode : string) : bool :=
  bool_decide (shortcode ∈ existingCodes).

Lemma includes_longest existingCodes shortcode :
  includes existingCodes shortcode = true ->
  (String.length shortcode <= longest existingCodes)%nat.
Proof.
  unfold includes. rewrite bool_decide_eq_true.
  induction 1 as [c l|c d l _ IH]; simpl; lia.
Qed.

Section Program.

(** The value of the k-th call of [Date.now()] (epoch milliseconds), the
    sample of the k-th call of [Math.random()], and whether the browser
    accepts the k-th call of [localStorage.setItem]. *)
Variable clock : nat -> Z.
Variable random : nat -> nat.
Variable accepts : nat -> bool.

(** [Date.now()] *)
Definition Date_now (w : World) : Z * World :=
  (clock (now_calls w),
   mkWorld (localStorage w) (S (now_calls w)) (random_calls w) (setItem_calls w)).

(** [Math.floor(Math.random() * n)] *)
Definition Math_random_below (n : nat) (w : World) : nat * World :=
  ((random (random_calls w) mod n)%nat,
   mkWorld (localStorage w) (now_calls w) (S (random_calls w)) (setItem_calls w)).

(** ** Code generator ([src/utils/shortcodeGenerator.ts]) *)

Definition chars : string :=
  "ABCDEFGHIJKLMNOPQRSTUVWXYZabcdefghijklmnopqrstuvwxyz0123456789".

(** The body of [for (let i = 0; i < length; i++)], with [remaining = length - i]. *)
Fixpoint generateShortcode_loop (remaining : nat) (result : string) (w : World)
  : string * World :=
  match remaining with
  | O => (result, w)
  | S k =>
      let '(i, w') := Math_random_below (String.length chars) w in
      generateShortcode_loop k (result +:+ Js.charAt chars i) w'
  end.

Definition generateShortcode (length : nat) (w : World) : string * World :=
  generateShortcode_loop length EmptyString w.

Arguments chars : simpl never.

Definition maxAttempts : nat := 100.
Arguments maxAttempts : simpl never.

Lemma charAt_length (s : string) (i : nat) :
  (i < String.length s)%nat -> String.length (Js.charAt s i) = 1%nat.
Proof.
  intros Hi. unfold Js.charAt.
  destruct (string_get_lt s i Hi) as [c ->]. reflexivity.
Qed.

Lemma generateShortcode_loop_length remaining result w :
  String.length (generateShortcode_loop remaining result w).1
  = (String.length result + remaining)%nat.
Proof.
  revert result w. induction remaining as [|k IH]; intros result w.
  - simpl. lia.
  - cbn [generateShortcode_loop]. unfold Math_random_below.
    rewrite IH, string_length_app, charAt_length; [lia|].
    apply Nat.mod_upper_bound. discriminate.
Qed.

Lemma generateShortcode_length length w :
  String.length (generateShortcode length w).1 = length.
Proof. unfold generateShortcode. now rewrite generateShortcode_loop_length. Qed.

(** The [while] loop of [generateUniqueShortcode]:
    [while (existingCodes.includes(shortcode) && attempts < maxAttempts)
       { shortcode = generateShortcode(length); attempts++; }].
    It runs at most [maxAttempts - attempts] times. *)
Equations? retry (existingCodes : list string) (len : nat)
  (shortcode : string) (attempts : nat) (w : World) : string * nat * World
  by wf (maxAttempts - attempts)%nat lt :=
retry existingCodes len shortcode attempts w
  with inspect (includes existingCodes shortcode && (attempts <? maxAttempts)%nat) := {
  | exist _ true _ =>
      retry existingCodes len
        (generateShortcode len w).1 (attempts + 1)%nat (generateShortcode len w).2
  | exist _ false _ => (shortcode, attempts, w) }.
Proof.
  apply andb_prop in e as [_ H%Nat.ltb_lt]. lia.
Qed.

Lemma retry_eq existingCodes len shortcode attempts w :
  retry existingCodes len shortcode attempts w =
  if includes existingCodes shortcode && (attempts <? maxAttempts)%nat
  then retry existingCodes len (generateShortcode len w).1 (attempts + 1)%nat
         (generateShortcode len w).2
  else (shortcode, attempts, w).
Proof.
  funelim (retry existingCodes len shortcode attempts w).
  - rewrite e. reflexivity.
  - rewrite e. reflexivity.
Qed.

Lemma retry_moved existingCodes len shortcode attempts w :
  (attempts < (retry existingCodes len shortcode attempts w).1.2)%nat ->
  includes existingCodes shortcode = true.
Proof.
  rewrite retry_eq.
  destruct (includes existingCodes shortcode); [reflexivity|].
  simpl. lia.
Qed.

(** [generateUniqueShortcode(existingCodes, length = 6)]: a first candidate,
    the [while] loop, then either the recursive call at [length + 1] or the
    candidate in hand.  A candidate longer than every excluded code cannot
    collide, which bounds the escalation. *)
Equations? generateUniqueShortcode (existingCodes : list string) (len : nat)
  (w : World) : string * World
  by wf (S (longest existingCodes) - len)%nat lt :=
generateUniqueShortcode existingCodes len w
  with inspect (retry existingCodes len
                  (generateShortcode len w).1 0%nat (generateShortcode len w).2) := {
  | exist _ (shortcode, attempts, w') _
      with inspect (maxAttempts <=? attempts)%nat := {
    | exist _ true _ => generateUniqueShortcode existingCodes (len + 1)%nat w'
    | exist _ false _ => (shortcode, w') } }.
Proof.
  change ((maxAttempts <=? attempts)%nat = true) in e0.
  apply Nat.leb_le in e0.
  assert (Hin : includes existingCodes (generateShortcode len w).1 = true).
  { apply (retry_moved existingCodes len _ 0%nat (generateShortcode len w).2).
    rewrite e. simpl. unfold maxAttempts in e0. lia. }
  apply includes_longest in Hin. rewrite generateShortcode_length in Hin. lia.
Qed.

Lemma generateUniqueShortcode_eq existingCodes len w :
  generateUniqueShortcode existingCodes len w =
  let '(shortcode, attempts, w') :=
    retry existingCodes len (generateShortcode len w).1 0%nat (generateShortcode len w).2 in
  if (maxAttempts <=? attempts)%nat
  then generateUniqueShortcode existingCodes (len + 1)%nat w'
  else (shortcode, w').
Proof.
  funelim (generateUniqueShortcode existingCodes len w).
  - rewrite e, e0. reflexivity.
  - rewrite e, e0. reflexivity.
Qed.

(** ** Click simulator ([src/utils/clickSimulator.ts]) *)

Definition SOURCES : list string :=
  ["Direct"; "Google Search"; "Social Media"; "Email"; "Referral"; "Other"].

Definition GEOS : list string :=
  ["North America"; "Europe"; "Asia"; "South America"; "Africa"; "Oceania"].

Definition generateClickEvent (w : World) : ClickEvent * World :=
  let '(now, w) := Date_now w in
  let '(i, w) := Math_random_below (length SOURCES) w in
  let '(j, w) := Math_random_below (length GEOS) w in
  (mkClickEvent now (default EmptyString (SOURCES !! i)) (default EmptyString (GEOS !! j)), w).

(** ** Record store ([src/utils/dataStore.ts]) *)

(** [localStorage.getItem(STORAGE_KEY)] *)
Definition getItem : Eff (option Item) :=
  fun w => (Returned (localStorage w), w).

(** [localStorage.setItem(STORAGE_KEY, JSON.stringify(urls))]: the browser
    takes the new text, or refuses it and keeps the old one. *)
Definition setItem (urls : list ShortenedUrl) : Eff unit :=
  fun w =>
    let k := setItem_calls w in
    if accepts k then
      (Returned tt, mkWorld (Some (Encoded urls)) (now_calls w) (random_calls w) (S k))
    else
      (Thrown QuotaExceededError,
       mkWorld (localStorage w) (now_calls w) (random_calls w) (S k)).

(** [JSON.parse(data)] *)
Definition JSON_parse (data : Item) : Eff (list ShortenedUrl) :=
  match data with
  | Corrupt _ => throw SyntaxError
  | Encoded urls => ret urls
  end.

(** Truthiness of the text [getItem] returned: only the empty text is falsy. *)
Definition Item_truthy (data : Item) : bool :=
  match data with
  | Corrupt text => Js.truthy text
  | Encoded _ => true
  end.

Local Open Scope eff_scope.

Definition getAllUrls : Eff (list ShortenedUrl) :=
  try_catch
    (data <- getItem ;;
     match data with
     | Some text => if Item_truthy text then JSON_parse text else ret []
     | None => ret []
     end)
    (fun _ => ret []).

Definition addUrl (url : ShortenedUrl) : Eff unit :=
  try_catch
    (urls <- getAllUrls ;;
     setItem (urls ++ [url]))
    (fun error => throw error).

Definition getUrlByShortCode (shortCode : string) : Eff (option ShortenedUrl) :=
  try_catch
    (urls <- getAllUrls ;;
     ret (snd <$> list_find (fun u => ShortenedUrl.shortCode u = shortCode) urls))
    (fun _ => ret None).

Definition updateUrl (url : ShortenedUrl) : Eff unit :=
  try_catch
    (urls <- getAllUrls ;;
     match fst <$> list_find (fun u => ShortenedUrl.id u = ShortenedUrl.id url) urls with
     | Some index => setItem (<[index := url]> urls)
     | None => ret tt
     end)
    (fun error => throw error).

Definition deleteUrl (id : string) : Eff unit :=
  try_catch
    (urls <- getAllUrls ;;
     setItem (filter (fun u => ShortenedUrl.id u <> id) urls))
    (fun error => throw error).

Definition isShortCodeUnique (shortCode : string) : Eff bool :=
  urls <- getAllUrls ;;
  let exists_ := bool_decide (Exists (fun u => ShortenedUrl.shortCode u = shortCode) urls) in
  ret (negb exists_).

(** [url.clicks.push(clickEvent)] on the record just read *)
Definition push_click (url : ShortenedUrl) (clickEvent : ClickEvent) : ShortenedUrl :=
  ShortenedUrl.mk (ShortenedUrl.id url) (ShortenedUrl.originalUrl url)
    (ShortenedUrl.shortCode url) (ShortenedUrl.creationDate url)
    (ShortenedUrl.expiryDate url) (ShortenedUrl.clicks url ++ [clickEvent]).

Definition addClick (shortCode : string) (clickEvent : ClickEvent) : Eff unit :=
  try_catch
    (url <- getUrlByShortCode shortCode ;;
     match url with
     | Some url => updateUrl (push_click url clickEvent)
     | None => ret tt
     end)
    (fun error => throw error).

(** ** Resolver ([src/components/RedirectPage.tsx]) *)

Inductive Status : Type := loading | redirecting | not_found | expired.

(** What [handleRedirect] leaves behind: the status it set, and the address
    the timer it started will navigate to, if it started one. *)
Record RedirectPage : Type := mkRedirectPage {
  status : Status;
  location_href : option string
}.

(** [url.expiryDate && Date.now() > url.expiryDate]: the clock is read only
    when [expiryDate] is truthy, that is neither [null] nor [0]. *)
Definition isExpired (url : ShortenedUrl) : Eff bool :=
  match ShortenedUrl.expiryDate url with
  | Some expiryDate =>
      if expiryDate =? 0 then ret false
      else (now <- lift Date_now ;; ret (now >? expiryDate))
  | None => ret false
  end.

(** The click recorder: the two statements
    [const clickEvent = generateClickEvent(); dataStore.addClick(shortcode, clickEvent);]
    of [handleRedirect]. *)
Definition recordClick (shortcode : string) : Eff ClickEvent :=
  clickEvent <- lift generateClickEvent ;;
  _ <- addClick shortcode clickEvent ;;
  ret clickEvent.

(** [useParams] gives the route's [shortcode], or [undefined]. *)
Definition handleRedirect (shortcode : option string) : Eff RedirectPage :=
  match shortcode with
  | None => ret (mkRedirectPage not_found None)
  | Some shortcode =>
      if negb (Js.truthy shortcode) then ret (mkRedirectPage not_found None)
      else
        try_catch
          (url <- getUrlByShortCode shortcode ;;
           match url with
           | None => ret (mkRedirectPage not_found None)
           | Some url =>
               is_expired <- isExpired url ;;
               if is_expired then ret (mkRedirectPage expired None)
               else
                 (clickEvent <- recordClick shortcode ;;
                  ret (mkRedirectPage redirecting (Some (ShortenedUrl.originalUrl url))))
           end)
          (fun _ => ret (mkRedirectPage not_found None))
  end.

(** ** Submission flow ([src/components/UrlForm.tsx]) *)

(** The component's state. *)
Record UrlForm : Type := mkUrlForm {
  forms : list UrlFormData;
  results : list ShortenedUrl;
  isProcessing : bool;
  errors : gmap string string
}.

Definition blank_form : UrlFormData := UrlFormData.mk EmptyString 30 EmptyString.

(** [validateForm(form, index)]: the [newErrors] object; the caller merges it
    into [errors] and reads [Object.keys(newErrors).length === 0]. *)
Definition validateForm (form : UrlFormData) (index : nat) : Eff (gmap string string) :=
  let newErrors : gmap string string := ∅ in
  let urlValidation := Validation.validateUrl (UrlFormData.originalUrl form) in
  let newErrors :=
    if negb (isValid urlValidation)
    then <["url_" +:+ pretty index := message urlValidation]> newErrors
    else newErrors in
  let periodValidation := Validation.validateValidityPeriod (UrlFormData.validityPeriod form) in
  let newErrors :=
    if negb (isValid periodValidation)
    then <["period_" +:+ pretty index := message periodValidation]> newErrors
    else newErrors in
  let shortcodeValidation := Validation.validateShortcode (UrlFormData.preferredShortcode form) in
  let newErrors :=
    if negb (isValid shortcodeValidation)
    then <["shortcode_" +:+ pretty index := message shortcodeValidation]> newErrors
    else newErrors in
  taken <- (if Js.truthy (UrlFormData.preferredShortcode form)
            then (unique <- isShortCodeUnique (UrlFormData.preferredShortcode form) ;;
                  ret (negb unique))
            else ret false) ;;
  ret (if taken : bool
       then <["shortcode_" +:+ pretty index := "This shortcode is already taken"]> newErrors
       else newErrors).

(** [Math.random().toString(36).substr(2, 9)]: the digits of the sample in
    base 36, nine of them at most; a sample with a short expansion gives
    fewer, and the sample 0 gives none. *)
Definition digits36 : string := "0123456789abcdefghijklmnopqrstuvwxyz".

Fixpoint base36 (digits : nat) (sample : nat) : string :=
  match digits with
  | O => EmptyString
  | S d =>
      if (sample =? 0)%nat then EmptyString
      else Js.charAt digits36 (sample mod 36) +:+ base36 d (sample / 36)
  end.

Definition Math_random_suffix (w : World) : string * World :=
  (base36 9 (random (random_calls w)),
   mkWorld (localStorage w) (now_calls w) (S (random_calls w)) (setItem_calls w)).

(** The local variables of [handleSubmit]'s loop, with the [errors] state the
    calls of [setErrors] have built so far. *)
Record Progress : Type := mkProgress {
  processedUrls : list ShortenedUrl;
  hasErrors : bool;
  reported : gmap string string
}.

(** The record [handleSubmit] builds for a form that passed [validateForm]. *)
Definition build_url (form : UrlFormData) (shortCode : string) : Eff ShortenedUrl :=
  id_time <- lift Date_now ;;
  id_suffix <- lift Math_random_suffix ;;
  creationDate <- lift Date_now ;;
  expiry_base <- lift Date_now ;;
  ret (ShortenedUrl.mk
         (pretty id_time +:+ id_suffix)
         (if Js.startsWith "http" (UrlFormData.originalUrl form)
          then UrlFormData.originalUrl form
          else "https://" +:+ UrlFormData.originalUrl form)
         shortCode
         creationDate
         (Some (expiry_base + UrlFormData.validityPeriod form * 60 * 1000))
         []).

(** The body of [for (let i = 0; i < forms.length; i++)], from [forms[i]] on. *)
Fixpoint handleSubmit_loop (rest : list UrlFormData) (i : nat) (p : Progress)
  : Eff Progress :=
  match rest with
  | [] => ret p
  | form :: rest =>
      newErrors <- validateForm form i ;;
      let reported' := newErrors ∪ reported p in
      if negb (bool_decide (newErrors = ∅)) then
        handleSubmit_loop rest (S i) (mkProgress (processedUrls p) true reported')
      else
        (urls <- getAllUrls ;;
         let existingCodes := ShortenedUrl.shortCode <$> urls in
         shortCode <- (if Js.truthy (UrlFormData.preferredShortcode form)
                       then ret (UrlFormData.preferredShortcode form)
                       else lift (generateUniqueShortcode existingCodes 6)) ;;
         url <- build_url form shortCode ;;
         _ <- addUrl url ;;
         handleSubmit_loop rest (S i)
           (mkProgress (processedUrls p ++ [url]) (hasErrors p) reported'))
  end.

Definition handleSubmit (st : UrlForm) : World -> UrlForm * World :=
  fun w =>
    match handleSubmit_loop (forms st) 0 (mkProgress [] false ∅) w with
    | (Returned p, w') =>
        if negb (hasErrors p)
        then (mkUrlForm [blank_form] (processedUrls p) false (reported p), w')
        else (mkUrlForm (forms st) [] false (reported p), w')
    | (Thrown _, w') =>
        (mkUrlForm (forms st) [] false
           {["general" := "An error occurred while shortening URLs. Please try again."]},
         w')
    end.

(** * Properties *)

(** ** Reading the store *)

(** The records the store holds, as the program can see them. *)
Definition stored (w : World) : list ShortenedUrl :=
  match localStorage w with
  | Some (Encoded urls) => urls
  | _ => []
  end.

(** The first record bound to a code, and the position of the first record
    with a given id. *)
Definition findByCode (urls : list ShortenedUrl) (code : string) : option ShortenedUrl :=
  snd <$> list_find (fun u => ShortenedUrl.shortCode u = code) urls.

Definition indexOfId (urls : list ShortenedUrl) (id : string) : option nat :=
  fst <$> list_find (fun u => ShortenedUrl.id u = id) urls.

Definition codes (urls : list ShortenedUrl) : list string :=
  ShortenedUrl.shortCode <$> urls.

(** The world after a write of [urls] that the browser accepted, and after
    one it refused. *)
Definition written (urls : list ShortenedUrl) (w : World) : World :=
  mkWorld (Some (Encoded urls)) (now_calls w) (random_calls w) (S (setItem_calls w)).

Definition refused (w : World) : World :=
  mkWorld (localStorage w) (now_calls w) (random_calls w) (S (setItem_calls w)).

Ltac eff_unfold :=
  unfold bind, try_catch, ret, throw, lift, getItem, JSON_parse in *.

Lemma try_catch_rethrow {A} (m : Eff A) w :
  try_catch m (fun error => throw error) w = m w.
Proof. unfold try_catch, throw. destruct (m w) as [[a|e] w']; reflexivity. Qed.

Lemma getAllUrls_stored w : getAllUrls w = (Returned (stored w), w).
Proof.
  unfold getAllUrls, stored. eff_unfold.
  destruct (localStorage w) as [[text|urls]|]; simpl; try reflexivity.
  destruct text; reflexivity.
Qed.

Lemma setItem_eq urls w :
  setItem urls w =
  if accepts (setItem_calls w) then (Returned tt, written urls w)
  else (Thrown QuotaExceededError, refused w).
Proof. reflexivity. Qed.

Lemma addUrl_eq url w :
  addUrl url w =
  if accepts (setItem_calls w) then (Returned tt, written (stored w ++ [url]) w)
  else (Thrown QuotaExceededError, refused w).
Proof.
  unfold addUrl. rewrite try_catch_rethrow. unfold bind.
  rewrite getAllUrls_stored. apply setItem_eq.
Qed.

Lemma getUrlByShortCode_eq code w :
  getUrlByShortCode code w = (Returned (findByCode (stored w) code), w).
Proof.
  unfold getUrlByShortCode, try_catch, bind. rewrite getAllUrls_stored. reflexivity.
Qed.

Lemma isShortCodeUnique_eq code w :
  isShortCodeUnique code w = (Returned (negb (includes (codes (stored w)) code)), w).
Proof.
  unfold isShortCodeUnique, bind. rewrite getAllUrls_stored. unfold ret.
  do 3 f_equal. unfold includes, codes. apply bool_decide_ext.
  rewrite Exists_exists, list_elem_of_fmap. split.
  - intros (u & Hu & <-). eauto.
  - intros (u & -> & Hu). eauto.
Qed.

Lemma updateUrl_eq url w :
  updateUrl url w =
  match indexOfId (stored w) (ShortenedUrl.id url) with
  | Some index => setItem (<[index := url]> (stored w)) w
  | None => (Returned tt, w)
  end.
Proof.
  unfold updateUrl. rewrite try_catch_rethrow. unfold bind.
  rewrite getAllUrls_stored. unfold indexOfId.
  destruct (fst <$> list_find _ (stored w)); reflexivity.
Qed.

Lemma addClick_eq code clickEvent w :
  addClick code clickEvent w =
  match findByCode (stored w) code with
  | Some url => updateUrl (push_click url clickEvent) w
  | None => (Returned tt, w)
  end.
Proof.
  unfold addClick. rewrite try_catch_rethrow. unfold bind.
  rewrite getUrlByShortCode_eq.
  destruct (findByCode (stored w) code); reflexivity.
Qed.

(** ** Click recording *)

(** [K] calls of the click recorder on one code, in a row; the events it
    recorded are returned in the order of the calls. *)
Fixpoint recordClicks (K : nat) (code : string) : Eff (list ClickEvent) :=
  match K with
  | O => ret []
  | S K' =>
      clickEvent <- recordClick code ;;
      later <- recordClicks K' code ;;
      ret (clickEvent :: later)
  end.




Lemma findByCode_Some urls code url :
  findByCode urls code = Some url ->
  exists i, list_find (fun u => ShortenedUrl.shortCode u = code) urls = Some (i, url).
Proof.
  unfold findByCode. destruct (list_find _ urls) as [[i u]|]; simpl; [|discriminate].
  intros [= ->]. eauto.
Qed.




Lemma recordClick_eq code w :
  recordClick code w =
  match addClick code (generateClickEvent w).1 (generateClickEvent w).2 with
  | (Returned _, w') => (Returned (generateClickEvent w).1, w')
  | (Thrown e, w') => (Thrown e, w')
  end.
Proof.
  unfold recordClick, bind, lift, ret.
  destruct (generateClickEvent w) as [clickEvent w1]; simpl.
  destruct (addClick code clickEvent w1) as [[[]|e] w2]; reflexivity.
Qed.



(** ** Resolution *)

(** The world after one more call of [Date.now()]. *)
Definition ticked (w : World) : World :=
  mkWorld (localStorage w) (S (now_calls w)) (random_calls w) (setItem_calls w).

Lemma isExpired_eq url w :
  isExpired url w =
  match ShortenedUrl.expiryDate url with
  | Some e =>
      if e =? 0 then (Returned false, w)
      else (Returned (clock (now_calls w) >? e), ticked w)
  | None => (Returned false, w)
  end.
Proof.
  unfold isExpired. destruct (ShortenedUrl.expiryDate url) as [e|]; [|reflexivity].
  destruct (e =? 0); reflexivity.
Qed.






Lemma handleRedirect_found code url w :
  Js.truthy code = true ->
  findByCode (stored w) code = Some url ->
  handleRedirect (Some code) w =
  match isExpired url w with
  | (Returned true, w1) => (Returned (mkRedirectPage expired None), w1)
  | (Returned false, w1) =>
      match recordClick code w1 with
      | (Returned _, w2) =>
          (Returned (mkRedirectPage redirecting (Some (ShortenedUrl.originalUrl url))), w2)
      | (Thrown _, w2) => (Returned (mkRedirectPage not_found None), w2)
      end
  | (Thrown _, w1) => (Returned (mkRedirectPage not_found None), w1)
  end.
Proof.
  intros Htruthy Hfind. unfold handleRedirect. rewrite Htruthy. simpl.
  unfold try_catch, bind at 1. rewrite getUrlByShortCode_eq, Hfind.
  unfold bind at 1.
  destruct (isExpired url w) as [[[]|e] w1]; try reflexivity.
  unfold bind, ret. destruct (recordClick code w1) as [[c|e] w2]; reflexivity.
Qed.

Lemma handleRedirect_missing shortcode w :
  match shortcode with
  | Some code => Js.truthy code = false \/ findByCode (stored w) code = None
  | None => True
  end ->
  handleRedirect shortcode w = (Returned (mkRedirectPage not_found None), w).
Proof.
  destruct shortcode as [code|]; [|reflexivity].
  unfold handleRedirect. destruct (Js.truthy code); simpl; [|reflexivity].
  intros [?|Hnone]; [discriminate|].
  unfold try_catch, bind. now rewrite getUrlByShortCode_eq, Hnone.
Qed.




(** ** The code generator *)

(** Candidate codes: [n] characters of the alphabet. *)
Definition is_code (n : nat) (c : string) : Prop :=
  String.length c = n /\
  Forall (fun a => a ∈ list_ascii_of_string chars) (list_ascii_of_string c).

(** Only the count of [Math.random()] calls separates two worlds. *)
Definition only_drew (w w' : World) : Prop :=
  localStorage w' = localStorage w /\
  now_calls w' = now_calls w /\
  setItem_calls w' = setItem_calls w.

Lemma only_drew_refl w : only_drew w w.
Proof. unfold only_drew. auto. Qed.

Lemma only_drew_trans w1 w2 w3 : only_drew w1 w2 -> only_drew w2 w3 -> only_drew w1 w3.
Proof. unfold only_drew. intros (?&?&?) (?&?&?). split_and!; congruence. Qed.

Lemma list_ascii_of_string_app (s t : string) :
  list_ascii_of_string (s +:+ t) = list_ascii_of_string s ++ list_ascii_of_string t.
Proof. induction s as [|c s IH]; simpl; [reflexivity|]. now rewrite IH. Qed.

Lemma charAt_chars i :
  (i < String.length chars)%nat ->
  Forall (fun a => a ∈ list_ascii_of_string chars) (list_ascii_of_string (Js.charAt chars i)).
Proof.
  intros Hi. unfold Js.charAt. destruct (string_get_lt chars i Hi) as [c Hc].
  rewrite Hc. cbn [list_ascii_of_string]. constructor; [|constructor].
  eapply string_get_Some, Hc.
Qed.

Lemma generateShortcode_loop_spec remaining result w :
  Forall (fun a => a ∈ list_ascii_of_string chars) (list_ascii_of_string result) ->
  Forall (fun a => a ∈ list_ascii_of_string chars)
    (list_ascii_of_string (generateShortcode_loop remaining result w).1) /\
  only_drew w (generateShortcode_loop remaining result w).2.
Proof.
  revert result w. induction remaining as [|k IH]; intros result w Hres.
  - simpl. auto using only_drew_refl.
  - cbn [generateShortcode_loop]. unfold Math_random_below.
    match goal with |- context [generateShortcode_loop k ?r ?v] =>
      destruct (IH r v) as [IH1 IH2] end.
    + rewrite list_ascii_of_string_app. apply Forall_app. split; [assumption|].
      apply charAt_chars, Nat.mod_upper_bound. discriminate.
    + split; [assumption|]. eapply only_drew_trans; [|exact IH2].
      unfold only_drew. simpl. auto.
Qed.

Lemma generateShortcode_is_code len w : is_code len (generateShortcode len w).1.
Proof.
  split; [apply generateShortcode_length|].
  apply generateShortcode_loop_spec. constructor.
Qed.

Lemma generateShortcode_only_drew len w : only_drew w (generateShortcode len w).2.
Proof. apply generateShortcode_loop_spec. constructor. Qed.

(** When the loop stops, the candidate in hand is free or the attempts are
    used up; a candidate it hands back is one it was given or drew, so it has
    the requested length. *)
Lemma retry_spec existingCodes len shortcode attempts w :
  let r := retry existingCodes len shortcode attempts w in
  includes existingCodes r.1.1 && (r.1.2 <? maxAttempts)%nat = false /\
  (attempts <= r.1.2)%nat /\
  (is_code len shortcode -> is_code len r.1.1) /\
  only_drew w r.2.
Proof.
  funelim (retry existingCodes len shortcode attempts w).
  - destruct H as (H1 & H2 & H3 & H4). simpl in *.
    split_and!; [assumption|lia|..].
    + intros _. apply H3, generateShortcode_is_code.
    + eapply only_drew_trans; [apply generateShortcode_only_drew|exact H4].
  - simpl. split_and!; auto using only_drew_refl.
Qed.

(** A free candidate leaves the loop at once. *)
Lemma retry_free existingCodes len shortcode attempts w :
  includes existingCodes shortcode = false ->
  retry existingCodes len shortcode attempts w = (shortcode, attempts, w).
Proof. intros H. now rewrite retry_eq, H. Qed.

(** When every candidate collides, the loop uses up its attempts. *)
Lemma retry_exhausts existingCodes len shortcode attempts w :
  (forall c, is_code len c -> includes existingCodes c = true) ->
  is_code len shortcode ->
  (attempts <= maxAttempts)%nat ->
  (retry existingCodes len shortcode attempts w).1.2 = maxAttempts.
Proof.
  intros Hall. funelim (retry existingCodes len shortcode attempts w).
  - intros _ Hle. apply H; [assumption|apply generateShortcode_is_code|].
    destruct (andb_prop _ _ e) as [_ Hlt%Nat.ltb_lt]. lia.
  - intros Hcode Hle. simpl. pose proof e as Hstop.
    rewrite (Hall _ Hcode) in Hstop. simpl in Hstop.
    apply Nat.ltb_ge in Hstop. lia.
Qed.

(** The code [generateUniqueShortcode] returns is not excluded; it has at
    least the requested length and at most one more than the longest excluded
    code (when that exceeds the request); and only the random source moved. *)
Lemma generateUniqueShortcode_spec existingCodes len w :
  let r := generateUniqueShortcode existingCodes len w in
  includes existingCodes r.1 = false /\
  (len <= String.length r.1 <= Nat.max len (S (longest existingCodes)))%nat /\
  is_code (String.length r.1) r.1 /\
  only_drew w r.2.
Proof.
  funelim (generateUniqueShortcode existingCodes len w).
  - pose proof (retry_spec existingCodes len (generateShortcode len w).1 0%nat
                  (generateShortcode len w).2) as Hretry.
    rewrite e in Hretry. simpl in Hretry. destruct Hretry as (_ & _ & _ & Hdrew).
    assert (Hlen : (len <= longest existingCodes)%nat).
    { pose proof e0 as Hmax. apply Nat.leb_le in Hmax.
      assert (Hin : includes existingCodes (generateShortcode len w).1 = true).
      { apply (retry_moved existingCodes len _ 0%nat (generateShortcode len w).2).
        rewrite e. simpl. unfold maxAttempts in Hmax. lia. }
      apply includes_longest in Hin. now rewrite generateShortcode_length in Hin. }
    match goal with IH : _ /\ _ |- _ => destruct IH as (IHfree & IHlen & IHcode & IHdrew) end.
    split_and!; [assumption|lia|lia|assumption|].
    eapply only_drew_trans; [apply generateShortcode_only_drew|].
    eapply only_drew_trans; eassumption.
  - pose proof (retry_spec existingCodes len (generateShortcode len w).1 0%nat
                  (generateShortcode len w).2) as Hretry.
    rewrite e in Hretry. simpl in Hretry.
    destruct Hretry as (Hstop & _ & Hcode & Hdrew).
    specialize (Hcode (generateShortcode_is_code len w)).
    pose proof e0 as Hmax. apply Nat.leb_gt in Hmax.
    apply Nat.ltb_lt in Hmax. rewrite Hmax, andb_true_r in Hstop.
    destruct Hcode as [Hl Hchars]. simpl.
    split_and!; [assumption|lia|lia| |].
    + split; [reflexivity|assumption].
    + eapply only_drew_trans; [apply generateShortcode_only_drew|exact Hdrew].
Qed.

Lemma includes_false existingCodes c :
  includes existingCodes c = false <-> c ∉ existingCodes.
Proof. unfold includes. apply bool_decide_eq_false. Qed.

Lemma includes_true existingCodes c :
  includes existingCodes c = true <-> c ∈ existingCodes.
Proof. unfold includes. apply bool_decide_eq_true. Qed.

(** C6. [generateUniqueShortcode] returns, for every exclusion list, a code
    outside the list, no shorter than asked and at most one character longer
    than the longest excluded code.  Against a list that holds every
    6-character code it returns a code outside the list of at least seven
    characters, and of exactly seven when the list holds no 7-character code
    (as the list of the 6-character codes does). *)
Theorem generateUniqueShortcode_terminates :
  (forall (existingCodes : list string) (len : nat) (w : World),
     exists code w',
       generateUniqueShortcode existingCodes len w = (code, w') /\
       (code ∉ existingCodes) /\
       (len <= String.length code <= Nat.max len (S (longest existingCodes)))%nat) /\
  (forall (existingCodes : list string) (w : World),
     (forall c, is_code 6 c -> c ∈ existingCodes) ->
     exists code w',
       generateUniqueShortcode existingCodes 6 w = (code, w') /\
       (code ∉ existingCodes) /\
       (7 <= String.length code)%nat /\
       ((forall c, c ∈ existingCodes -> String.length c <> 7%nat) ->
        String.length code = 7%nat)).
Proof.
  split.
  - intros existingCodes len w.
    destruct (generateUniqueShortcode_spec existingCodes len w) as (H1 & H2 & _ & _).
    destruct (generateUniqueShortcode existingCodes len w) as [code w'].
    exists code, w'. split; [reflexivity|]. split; [now apply includes_false|exact H2].
  - intros existingCodes w Hfull.
    rewrite generateUniqueShortcode_eq.
    assert (Hex : (retry existingCodes 6 (generateShortcode 6 w).1 0%nat
                     (generateShortcode 6 w).2).1.2 = maxAttempts).
    { apply retry_exhausts.
      - intros c Hc. apply includes_true, Hfull, Hc.
      - apply generateShortcode_is_code.
      - unfold maxAttempts. lia. }
    destruct (retry existingCodes 6 _ 0%nat _) as [[shortcode attempts] w1].
    cbn [fst snd] in Hex. subst attempts.
    rewrite Nat.leb_refl. change (6 + 1)%nat with 7%nat.
    destruct (generateUniqueShortcode_spec existingCodes 7 w1) as (Hfree & Hlen & _ & _).
    destruct (generateUniqueShortcode existingCodes 7 w1) as [code w2] eqn:Hrun.
    cbn [fst] in Hfree, Hlen.
    exists code, w2. split; [reflexivity|].
    split; [now apply includes_false|]. split; [lia|].
    intros Hno7.
    assert (Hfirst : includes existingCodes (generateShortcode 7 w1).1 = false).
    { apply includes_false. intros Hin. apply Hno7 in Hin.
      now rewrite generateShortcode_length in Hin. }
    rewrite generateUniqueShortcode_eq, (retry_free _ _ _ _ _ Hfirst) in Hrun.
    change (maxAttempts <=? 0)%nat with false in Hrun.
    pose proof (generateShortcode_length 7 w1) as Hl.
    destruct (generateShortcode 7 w1) as [code' w2']. injection Hrun as <- _.
    exact Hl.
Qed.

(** *** Which candidate is returned

    The candidates of one length, in the order they are drawn: [candidate len
    n w] is the [n]-th one (the first candidate is number 0, the [k]-th retry
    draws number [k]), and [drawn len n w] is the world once [n] of them were
    drawn. *)
Fixpoint drawn (len n : nat) (w : World) : World :=
  match n with
  | O => w
  | S k => (generateShortcode len (drawn len k w)).2
  end.

Definition candidate (len n : nat) (w : World) : string :=
  (generateShortcode len (drawn len n w)).1.

(** The loop, entered with candidate [k] in hand, stops at the first free
    candidate [n], as long as it takes fewer than [maxAttempts] retries. *)
Lemma retry_first_free existingCodes len w n k :
  (k <= n)%nat -> (n < maxAttempts)%nat ->
  (forall m, (k <= m < n)%nat -> includes existingCodes (candidate len m w) = true) ->
  includes existingCodes (candidate len n w) = false ->
  retry existingCodes len (candidate len k w) k (drawn len (S k) w)
  = (candidate len n w, n, drawn len (S n) w).
Proof.
  intros Hkn Hn. remember (n - k)%nat as d eqn:Hd. revert k Hkn Hd.
  induction d as [|d IH]; intros k Hkn Hd Hcoll Hfree.
  - assert (k = n) as -> by lia. now apply retry_free.
  - rewrite retry_eq, (Hcoll k) by lia.
    assert (Hlt : (k <? maxAttempts)%nat = true) by (apply Nat.ltb_lt; lia).
    rewrite Hlt. cbn [andb]. replace (k + 1)%nat with (S k) by lia.
    apply (IH (S k)); [lia|lia| |assumption].
    intros m Hm. apply Hcoll. lia.
Qed.

(** When the first [maxAttempts] candidates collide, the loop stops with the
    next candidate in hand, free or not, and [attempts = maxAttempts]. *)
Lemma retry_hundred_collide existingCodes len w k :
  (k <= maxAttempts)%nat ->
  (forall m, (k <= m < maxAttempts)%nat ->
             includes existingCodes (candidate len m w) = true) ->
  retry existingCodes len (candidate len k w) k (drawn len (S k) w)
  = (candidate len maxAttempts w, maxAttempts, drawn len (S maxAttempts) w).
Proof.
  intros Hk. remember (maxAttempts - k)%nat as d eqn:Hd. revert k Hk Hd.
  induction d as [|d IH]; intros k Hk Hd Hcoll.
  - assert (k = maxAttempts) as -> by lia.
    rewrite retry_eq, Nat.ltb_irrefl, andb_false_r. reflexivity.
  - rewrite retry_eq, (Hcoll k) by lia.
    assert (Hlt : (k <? maxAttempts)%nat = true) by (apply Nat.ltb_lt; lia).
    rewrite Hlt. cbn [andb]. replace (k + 1)%nat with (S k) by lia.
    apply (IH (S k)); [lia|lia|].
    intros m Hm. apply Hcoll. lia.
Qed.

(** The first free candidate is returned when it is the first candidate or
    the candidate of one of the retries 1 to 99. *)
Lemma generateUniqueShortcode_first_free existingCodes len w n :
  (n < maxAttempts)%nat ->
  (forall m, (m < n)%nat -> includes existingCodes (candidate len m w) = true) ->
  includes existingCodes (candidate len n w) = false ->
  generateUniqueShortcode existingCodes len w = (candidate len n w, drawn len (S n) w).
Proof.
  intros Hn Hcoll Hfree. rewrite generateUniqueShortcode_eq.
  change (generateShortcode len w).1 with (candidate len 0 w).
  change (generateShortcode len w).2 with (drawn len 1 w).
  rewrite (retry_first_free existingCodes len w n 0); [|lia|assumption| |assumption].
  - apply Nat.leb_gt in Hn. now rewrite Hn.
  - intros m Hm. apply Hcoll. lia.
Qed.

(** When the first candidate and the retries 1 to 99 collide, the candidate
    of the 100th retry is dropped unseen: the result is that of the call at
    [len + 1], whether that candidate is free or not. *)
Lemma generateUniqueShortcode_hundredth_retry_dropped existingCodes len w :
  (forall m, (m < maxAttempts)%nat -> includes existingCodes (candidate len m w) = true) ->
  generateUniqueShortcode existingCodes len w
  = generateUniqueShortcode existingCodes (len + 1) (drawn len (S maxAttempts) w).
Proof.
  intros Hcoll. rewrite generateUniqueShortcode_eq.
  change (generateShortcode len w).1 with (candidate len 0 w).
  change (generateShortcode len w).2 with (drawn len 1 w).
  rewrite (retry_hundred_collide existingCodes len w 0); [|lia|].
  - now rewrite Nat.leb_refl.
  - intros m Hm. apply Hcoll. lia.
Qed.

(** ** The submission flow *)

Definition passes_validators (form : UrlFormData) : Prop :=
  isValid (Validation.validateUrl (UrlFormData.originalUrl form)) = true /\
  isValid (Validation.validateValidityPeriod (UrlFormData.validityPeriod form)) = true /\
  isValid (Validation.validateShortcode (UrlFormData.preferredShortcode form)) = true.

(** [url] is a record [handleSubmit] builds for [form]: the form passed the
    three validators; the address is the form's, with [https://] in front
    unless it starts with [http]; a preferred shortcode is taken as it is;
    [creationDate] and the base of [expiryDate] are two successive readings
    of the clock; there are no clicks. *)
Definition created_from (form : UrlFormData) (url : ShortenedUrl) : Prop :=
  passes_validators form /\
  ShortenedUrl.originalUrl url =
    (if Js.startsWith "http" (UrlFormData.originalUrl form)
     then UrlFormData.originalUrl form
     else "https://" +:+ UrlFormData.originalUrl form) /\
  (Js.truthy (UrlFormData.preferredShortcode form) = true ->
   ShortenedUrl.shortCode url = UrlFormData.preferredShortcode form) /\
  (exists k,
      ShortenedUrl.creationDate url = clock k /\
      ShortenedUrl.expiryDate url
      = Some (clock (S k) + UrlFormData.validityPeriod form * 60 * 1000)) /\
  ShortenedUrl.clicks url = [].

Lemma startsWith_app (p q s : string) :
  Js.startsWith (p +:+ q) s = true -> Js.startsWith p s = true.
Proof.
  revert s. induction p as [|a p IH]; intros s; [reflexivity|].
  destruct s as [|b s]; simpl; [discriminate|].
  destruct (decide (a = b)); [apply IH|discriminate].
Qed.

(** The address of a created record: [https://] is put in front of an input
    that does not start with [http], and an input that carries [http://] or
    [https://] is kept as it is.  (An input that starts with [http] and has
    no protocol is kept as well.) *)
Lemma created_from_address form url :
  created_from form url ->
  (Js.startsWith "http" (UrlFormData.originalUrl form) = false ->
   ShortenedUrl.originalUrl url = "https://" +:+ UrlFormData.originalUrl form) /\
  (Js.startsWith "http://" (UrlFormData.originalUrl form) = true \/
   Js.startsWith "https://" (UrlFormData.originalUrl form) = true ->
   ShortenedUrl.originalUrl url = UrlFormData.originalUrl form).
Proof.
  intros (_ & -> & _). split.
  - intros ->. reflexivity.
  - intros [H|H].
    + now rewrite (startsWith_app "http" "://" _ H).
    + now rewrite (startsWith_app "http" "s://" _ H).
Qed.

Lemma validateForm_spec form index w :
  exists newErrors,
    validateForm form index w = (Returned newErrors, w) /\
    (newErrors = ∅ ->
     passes_validators form /\
     (Js.truthy (UrlFormData.preferredShortcode form) = true ->
      UrlFormData.preferredShortcode form ∉ codes (stored w))).
Proof.
  unfold validateForm, passes_validators, bind.
  destruct (isValid (Validation.validateUrl _)),
           (isValid (Validation.validateValidityPeriod _)),
           (isValid (Validation.validateShortcode _));
    cbn [negb];
    (destruct (Js.truthy (UrlFormData.preferredShortcode form)) eqn:Htruthy;
     [rewrite isShortCodeUnique_eq; unfold ret;
      destruct (includes _ _) eqn:Hin; cbn [negb]|unfold ret]);
    eexists; (split; [reflexivity|]); intros Hempty;
    try (now apply insert_non_empty in Hempty).
  - split; [auto|]. intros _. now apply includes_false.
  - split; [auto|]. discriminate.
Qed.

Lemma build_url_eq form shortCode w :
  build_url form shortCode w =
  (Returned
     (ShortenedUrl.mk
        (pretty (clock (now_calls w)) +:+ base36 9 (random (random_calls w)))
        (if Js.startsWith "http" (UrlFormData.originalUrl form)
         then UrlFormData.originalUrl form
         else "https://" +:+ UrlFormData.originalUrl form)
        shortCode
        (clock (S (now_calls w)))
        (Some (clock (S (S (now_calls w))) + UrlFormData.validityPeriod form * 60 * 1000))
        []),
   mkWorld (localStorage w) (S (S (S (now_calls w)))) (S (random_calls w))
     (setItem_calls w)).
Proof. reflexivity. Qed.

Lemma only_drew_stored w w' : only_drew w w' -> stored w' = stored w.
Proof. intros (H & _). unfold stored. now rewrite H. Qed.

Lemma codes_app urls url :
  codes (urls ++ [url]) = codes urls ++ [ShortenedUrl.shortCode url].
Proof. unfold codes. now rewrite fmap_app. Qed.

Lemma NoDup_snoc_fresh (l : list string) (c : string) :
  NoDup l -> c ∉ l -> NoDup (l ++ [c]).
Proof.
  intros Hl Hc. apply NoDup_app. split_and!; [assumption| |apply NoDup_singleton].
  intros x Hx ->%list_elem_of_singleton. contradiction.
Qed.

Lemma choose_shortCode_spec (form : UrlFormData) (existingCodes : list string) w :
  exists code w1,
    (if Js.truthy (UrlFormData.preferredShortcode form)
     then ret (UrlFormData.preferredShortcode form)
     else lift (generateUniqueShortcode existingCodes 6)) w = (Returned code, w1) /\
    only_drew w w1 /\
    (Js.truthy (UrlFormData.preferredShortcode form) = true ->
     code = UrlFormData.preferredShortcode form) /\
    (Js.truthy (UrlFormData.preferredShortcode form) = false ->
     code ∉ existingCodes).
Proof.
  destruct (Js.truthy _).
  - do 2 eexists. split; [reflexivity|]. split_and!; auto using only_drew_refl.
    discriminate.
  - unfold lift.
    destruct (generateUniqueShortcode_spec existingCodes 6 w) as (Hfree & _ & _ & Hdrew).
    destruct (generateUniqueShortcode existingCodes 6 w) as [code w1].
    do 2 eexists. split; [reflexivity|]. split_and!; [assumption|discriminate|].
    intros _. now apply includes_false.
Qed.

(** What a run of the loop of [handleSubmit] over [rest] does between two
    worlds: the records it commits come, in order, from forms of [rest] that
    passed validation; a preferred shortcode it took was not in the store;
    the records are added at the end of the store; codes stay distinct. *)
Definition loop_outcome (rest : list UrlFormData) (w w' : World)
  (passed : list UrlFormData) (committed : list ShortenedUrl) : Prop :=
  sublist passed rest /\
  Forall2 created_from passed committed /\
  Forall (fun form =>
            Js.truthy (UrlFormData.preferredShortcode form) = true ->
            UrlFormData.preferredShortcode form ∉ codes (stored w)) passed /\
  stored w' = stored w ++ committed /\
  (NoDup (codes (stored w)) -> NoDup (codes (stored w'))).

(** [hasErrors] is raised exactly when some form did not pass, and the
    [errors] state is untouched when none failed. *)
Lemma handleSubmit_loop_spec rest i p w out w' :
  handleSubmit_loop rest i p w = (out, w') ->
  exists passed committed,
    loop_outcome rest w w' passed committed /\
    match out with
    | Returned p' =>
        processedUrls p' = processedUrls p ++ committed /\
        hasErrors p' = hasErrors p || (length passed <? length rest)%nat /\
        (hasErrors p' = false -> reported p' = reported p)
    | Thrown _ => True
    end.
Proof.
  unfold loop_outcome.
  revert i p w out w'. induction rest as [|form rest IH]; intros i p w out w'.
  - intros [= <- <-]. exists [], []. rewrite !app_nil_r, orb_false_r.
    split_and!; auto.
  - cbn [handleSubmit_loop]. unfold bind at 1.
    destruct (validateForm_spec form i w) as (newErrors & -> & Hvalid).
    destruct (decide (newErrors = ∅)) as [Hempty|Hfailed].
    + rewrite (bool_decide_eq_true_2 _ Hempty). cbn [negb].
      destruct (Hvalid Hempty) as [Hpasses Hunique].
      unfold bind at 1. rewrite getAllUrls_stored. cbv zeta.
      fold (codes (stored w)). unfold bind at 1.
      destruct (choose_shortCode_spec form (codes (stored w)) w)
        as (code & w1 & -> & Hdrew & Hpref & Hgen).
      unfold bind at 1. rewrite build_url_eq.
      set (url := ShortenedUrl.mk _ _ code _ _ _).
      set (w2 := mkWorld (localStorage w1) _ _ _).
      assert (Hstored2 : stored w2 = stored w) by apply (only_drew_stored _ _ Hdrew).
      assert (Hfresh : code ∉ codes (stored w)).
      { destruct (Js.truthy (UrlFormData.preferredShortcode form)) eqn:Ht.
        - rewrite Hpref by reflexivity. now apply Hunique.
        - now apply Hgen. }
      unfold bind at 1. rewrite addUrl_eq.
      destruct (accepts (setItem_calls w2)).
      * intros Hrest. apply IH in Hrest
          as (passed & committed & (Hsub & Hcreated & Hprefs & Hstored & Hnodup) & Hout).
        change (stored (written (stored w2 ++ [url]) w2)) with (stored w2 ++ [url]) in *.
        rewrite Hstored2 in *.
        exists (form :: passed), (url :: committed). split_and!.
        -- now apply sublist_skip.
        -- constructor; [|assumption]. unfold created_from. subst url. simpl.
           split_and!; auto. exists (S (now_calls w1)). auto.
        -- constructor; [assumption|].
           eapply Forall_impl; [exact Hprefs|]. intros f Hf Ht Hin.
           apply (Hf Ht). rewrite codes_app. apply elem_of_app. now left.
        -- now rewrite Hstored, <- app_assoc.
        -- intros Hnd. apply Hnodup. rewrite codes_app.
           now apply NoDup_snoc_fresh.
        -- destruct out as [p'|]; [|exact I]. simpl in Hout.
           destruct Hout as (Hproc & Herr & Hrep). split_and!.
           ++ now rewrite Hproc, <- app_assoc.
           ++ exact Herr.
           ++ intros Hno. rewrite (Hrep Hno). cbn [reported]. rewrite Hempty.
              apply (left_id_L ∅ (∪)).
      * intros [= <- <-]. exists [], [].
        assert (Hkept : stored (refused w2) = stored w) by exact Hstored2.
        rewrite Hkept, app_nil_r. split_and!.
        -- apply sublist_nil_l.
        -- constructor.
        -- constructor.
        -- reflexivity.
        -- auto.
        -- exact I.
    + rewrite (bool_decide_eq_false_2 _ Hfailed). cbn [negb].
      intros Hrest. apply IH in Hrest
        as (passed & committed & (Hsub & Hcreated & Hprefs & Hstored & Hnodup) & Hout).
      exists passed, committed. split_and!; auto.
      * now apply sublist_cons.
      * destruct out as [p'|]; [|exact I]. simpl in Hout.
        destruct Hout as (Hproc & Herr & Hrep). split_and!; [assumption| |].
        -- rewrite Herr. symmetry. apply orb_true_iff. right.
           apply Nat.ltb_lt. apply sublist_length in Hsub. simpl. lia.
        -- rewrite Herr. discriminate.
Qed.

Lemma sublist_full {A} (l1 l2 : list A) :
  sublist l1 l2 -> (length l2 <= length l1)%nat -> l1 = l2.
Proof.
  induction 1 as [|x l1 l2 _ IH|x l1 l2 Hsub _]; simpl; intros Hlen.
  - reflexivity.
  - f_equal. apply IH. lia.
  - apply sublist_length in Hsub. lia.
Qed.

(** What [handleSubmit] does to the store and to the component: the loop's
    outcome, and either no result is shown, or every form passed, its record
    is shown, no error is reported and the forms are reset. *)
Lemma handleSubmit_spec st w :
  exists passed committed,
    loop_outcome (forms st) w (handleSubmit st w).2 passed committed /\
    (results (handleSubmit st w).1 = [] \/
     results (handleSubmit st w).1 = committed /\
     passed = forms st /\
     errors (handleSubmit st w).1 = ∅ /\
     forms (handleSubmit st w).1 = [blank_form]).
Proof.
  unfold handleSubmit.
  destruct (handleSubmit_loop (forms st) 0 (mkProgress [] false ∅) w)
    as [out w'] eqn:Hloop.
  apply handleSubmit_loop_spec in Hloop as (passed & committed & Hout & Hres).
  exists passed, committed. destruct out as [p|e]; simpl.
  - destruct Hres as (Hproc & Herr & Hrep). simpl in *.
    destruct (hasErrors p) eqn:Hp; simpl; [auto|].
    split; [assumption|]. right. split_and!; auto.
    symmetry in Herr. apply Nat.ltb_ge in Herr.
    apply sublist_full; [apply Hout|assumption].
  - auto.
Qed.

(** A sequence of submissions, one batch of forms after the other. *)
Fixpoint submissions (batches : list (list UrlFormData)) (w : World) : World :=
  match batches with
  | [] => w
  | batch :: later => submissions later (handleSubmit (mkUrlForm batch [] false ∅) w).2
  end.


Lemma Forall2_Forall_r {A B} (P : A -> B -> Prop) (l : list A) (k : list B) :
  Forall2 P l k -> Forall (fun y => exists x, x ∈ l /\ P x y) k.
Proof.
  induction 1 as [|x y l k Hxy _ IH]; constructor.
  - exists x. split; [left|assumption].
  - eapply Forall_impl; [exact IH|]. intros z (x' & Hin & Hz).
    exists x'. split; [now right|assumption].
Qed.

(** C10 (as amended). Every record the submission flow creates has a
    non-null [expiryDate]: it is [validityPeriod * 60000] past the reading of
    the clock that follows the reading kept as [creationDate], for a form of
    the batch whose period passed validation.  So it is
    [creationDate + validityPeriod * 60000] whenever the two readings agree. *)
Theorem handleSubmit_sets_expiry (st : UrlForm) (w : World) :
  exists committed,
    stored (handleSubmit st w).2 = stored w ++ committed /\
    (results (handleSubmit st w).1 = [] \/ results (handleSubmit st w).1 = committed) /\
    Forall (fun url =>
              exists form k,
                form ∈ forms st /\
                isValid (Validation.validateValidityPeriod
                           (UrlFormData.validityPeriod form)) = true /\
                ShortenedUrl.creationDate url = clock k /\
                ShortenedUrl.expiryDate url
                = Some (clock (S k) + UrlFormData.validityPeriod form * 60000) /\
                (clock (S k) = clock k ->
                 ShortenedUrl.expiryDate url
                 = Some (ShortenedUrl.creationDate url
                         + UrlFormData.validityPeriod form * 60000)))
           committed.
Proof.
  destruct (handleSubmit_spec st w)
    as (passed & committed & (Hsub & Hcreated & _ & Hstored & _) & Hres).
  exists committed. split_and!; [assumption|tauto|].
  apply Forall2_Forall_r in Hcreated.
  eapply Forall_impl; [exact Hcreated|].
  intros url (form & Hin & (_ & Hperiod & _) & _ & _ & (k & Hcreation & Hexpiry) & _).
  exists form, k.
  assert (Hms : UrlFormData.validityPeriod form * 60 * 1000
                = UrlFormData.validityPeriod form * 60000) by lia.
  rewrite Hms in Hexpiry.
  split_and!; try assumption.
  - eapply sublist_subseteq; eassumption.
  - intros Hsame. now rewrite Hexpiry, Hcreation, Hsame.
Qed.

End Program.

Module RegExpFacts.
Import RegExp.

(** ** The matcher is the pattern's language

    [matches r s]: the whole of [s] is a word of [r]. *)
Inductive matches : t -> string -> Prop :=
| matches_empty : matches Empty EmptyString
| matches_class p a : p a = true -> matches (Class p) (String a EmptyString)
| matches_seq r1 r2 s1 s2 :
    matches r1 s1 -> matches r2 s2 -> matches (Seq r1 r2) (s1 +:+ s2)
| matches_alt_l r1 r2 s : matches r1 s -> matches (Alt r1 r2) s
| matches_alt_r r1 r2 s : matches r2 s -> matches (Alt r1 r2) s
| matches_star_nil r : matches (Star r) EmptyString
| matches_star_app r s1 s2 :
    matches r s1 -> matches (Star r) s2 -> matches (Star r) (s1 +:+ s2).

Lemma app_empty (s1 s2 : string) :
  s1 +:+ s2 = EmptyString -> s1 = EmptyString /\ s2 = EmptyString.
Proof. destruct s1; [auto|discriminate]. Qed.

Lemma app_cons (a : ascii) (s s1 s2 : string) :
  s1 +:+ s2 = String a s ->
  (s1 = EmptyString /\ s2 = String a s) \/
  (exists s1', s1 = String a s1' /\ s = s1' +:+ s2).
Proof.
  destruct s1 as [|b s1]; [auto|].
  intros [= -> <-]. right. eauto.
Qed.

Lemma nullable_spec (r : t) : nullable r = true <-> matches r EmptyString.
Proof.
  split.
  - induction r as [| |p|r1 IH1 r2 IH2|r1 IH1 r2 IH2|r IH]; simpl; intros H;
      try discriminate.
    + constructor.
    + apply andb_prop in H as [H1 H2].
      apply (matches_seq r1 r2 EmptyString EmptyString); auto.
    + apply orb_prop in H as [H|H]; [apply matches_alt_l|apply matches_alt_r]; auto.
    + constructor.
  - remember EmptyString as s eqn:Hs.
    induction 1 as [|p a Hp|r1 r2 s1 s2 _ IH1 _ IH2|r1 r2 s _ IH|r1 r2 s _ IH| |];
      simpl; try reflexivity; try discriminate.
    + apply app_empty in Hs as [-> ->]. now rewrite IH1, IH2.
    + now rewrite IH.
    + rewrite IH by assumption. apply orb_true_r.
Qed.

Lemma matches_Never (s : string) : ~ matches Never s.
Proof. inversion 1. Qed.

Ltac absurd_match :=
  match goal with H : matches Never _ |- _ => destruct (matches_Never _ H) end.

Lemma seq_spec (r1 r2 : t) (s : string) : matches (seq r1 r2) s <-> matches (Seq r1 r2) s.
Proof.
  assert (Hl : forall r, matches Never s <-> matches (Seq Never r) s).
  { intros r. split; [intros []%matches_Never|].
    inversion 1; subst. absurd_match. }
  assert (Hr : forall r, matches Never s <-> matches (Seq r Never) s).
  { intros r. split; [intros []%matches_Never|].
    inversion 1; subst. absurd_match. }
  assert (He : forall r, matches r s <-> matches (Seq Empty r) s).
  { intros r. split.
    - intros H. apply (matches_seq Empty r EmptyString s); [constructor|assumption].
    - inversion 1 as [| |? ? s1 s2 H1 H2| | | |]; subst. inversion H1; subst. assumption. }
  destruct r1, r2; simpl; auto; reflexivity.
Qed.

Lemma alt_spec (r1 r2 : t) (s : string) : matches (alt r1 r2) s <-> matches (Alt r1 r2) s.
Proof.
  assert (Hl : forall r, matches r s <-> matches (Alt Never r) s).
  { intros r. split; [apply matches_alt_r|].
    inversion 1; subst; [absurd_match|assumption]. }
  assert (Hr : forall r, matches r s <-> matches (Alt r Never) s).
  { intros r. split; [apply matches_alt_l|].
    inversion 1; subst; [assumption|absurd_match]. }
  destruct r1, r2; simpl; auto; reflexivity.
Qed.

Lemma matches_star_cons (r : t) (a : ascii) (s : string) :
  matches (Star r) (String a s) ->
  exists s1 s2, s = s1 +:+ s2 /\ matches r (String a s1) /\ matches (Star r) s2.
Proof.
  remember (Star r) as r' eqn:Hr. remember (String a s) as s' eqn:Hs.
  induction 1 as [| | | | | |r0 s1 s2 H1 _ H2 IH2]; try discriminate.
  injection Hr as ->. apply app_cons in Hs as [[-> ->]|(s1' & -> & ->)].
  - now apply IH2.
  - eauto.
Qed.

Lemma deriv_spec (a : ascii) (r : t) (s : string) :
  matches (deriv a r) s <-> matches r (String a s).
Proof.
  revert s. induction r as [| |p|r1 IH1 r2 IH2|r1 IH1 r2 IH2|r IH]; intros s; simpl.
  - split; inversion 1.
  - split; inversion 1.
  - destruct (p a) eqn:Hp; split.
    + inversion 1; subst. now constructor.
    + inversion 1; subst. constructor.
    + inversion 1.
    + inversion 1; subst. congruence.
  - rewrite alt_spec. split.
    + inversion 1 as [| | |? ? ? Hl|? ? ? Hr| |]; subst.
      * apply seq_spec in Hl. inversion Hl; subst.
        apply (matches_seq r1 r2 (String a _)); [now apply IH1|assumption].
      * destruct (nullable r1) eqn:Hn; [|now apply matches_Never in Hr].
        apply (matches_seq r1 r2 EmptyString); [now apply nullable_spec|now apply IH2].
    + inversion 1; subst.
      match goal with Heq : _ +:+ _ = String _ _ |- _ =>
        apply app_cons in Heq as [[-> ->]|(s1' & -> & ->)] end.
      * apply matches_alt_r.
        match goal with H1 : matches r1 EmptyString |- _ =>
          apply nullable_spec in H1; rewrite H1 end.
        now apply IH2.
      * apply matches_alt_l, seq_spec. constructor; [now apply IH1|assumption].
  - rewrite alt_spec. split.
    + inversion 1; subst; [apply matches_alt_l; now apply IH1|apply matches_alt_r; now apply IH2].
    + inversion 1; subst; [apply matches_alt_l; now apply IH1|apply matches_alt_r; now apply IH2].
  - rewrite seq_spec. split.
    + inversion 1; subst. apply (matches_star_app r (String a _)); [now apply IH|assumption].
    + intros (s1 & s2 & -> & H1 & H2)%matches_star_cons.
      constructor; [now apply IH|assumption].
Qed.

(** [test] decides the language of the pattern. *)
Lemma test_spec (r : t) (s : string) : test r s = true <-> matches r s.
Proof.
  revert r. induction s as [|a s IH]; intros r; simpl.
  - apply nullable_spec.
  - rewrite IH. apply deriv_spec.
Qed.

End RegExpFacts.

(** * Scenarios

    Concrete runs: a clock that advances by one millisecond at each reading,
    a random source that counts up, a browser that accepts every write, and
    an empty storage. *)

Definition ticking_clock (k : nat) : Z := 1700000000000 + Z.of_nat k.
Definition counting_random (k : nat) : nat := k.
Definition accepts_all (k : nat) : bool := true.
Definition empty_world : World := mkWorld None 0 0 0.

Definition form (originalUrl : string) (validityPeriod : Z) (preferredShortcode : string)
  : UrlFormData :=
  UrlFormData.mk originalUrl validityPeriod preferredShortcode.

Definition batch (forms : list UrlFormData) : UrlForm := mkUrlForm forms [] false ∅.

(** The happy path of the specification. *)
Example happy_path :
  stored (handleSubmit ticking_clock counting_random accepts_all
            (batch [form "example.com" 30 ""]) empty_world).2
  = [ShortenedUrl.mk "17000000000006" "https://example.com" "ABCDEF"
       1700000000001 (Some 1700001800002) []].
Proof. vm_compute. reflexivity. Qed.

(** A preferred shortcode that is taken: the second submission reports it
    and creates nothing. *)
Example duplicate_preferred_code :
  let first := handleSubmit ticking_clock counting_random accepts_all
                 (batch [form "example.com" 30 "dup123"]) empty_world in
  let second := handleSubmit ticking_clock counting_random accepts_all
                  (batch [form "example.org" 30 "dup123"]) first.2 in
  codes (stored first.2) = ["dup123"] /\
  errors second.1 !! "shortcode_0" = Some "This shortcode is already taken" /\
  results second.1 = [] /\
  stored second.2 = stored first.2.
Proof. vm_compute. auto. Qed.


(** C2, the defect at work. The exclusion list holds one code; the random
    source makes the first hundred candidates collide with it and the
    hundredth retry draw a free one.  The loop ends with that free candidate
    in hand and [attempts = 100], and [generateUniqueShortcode] drops it for
    a code of seven characters. *)
Definition late_random (k : nat) : nat := if (k <? 600)%nat then 0%nat else 1%nat.

Example generateUniqueShortcode_discards_hundredth_retry :
  let first := generateShortcode late_random 6 empty_world in
  retry late_random ["AAAAAA"] 6 first.1 0 first.2
  = ("BBBBBB", 100%nat, mkWorld None 0 606 0) /\
  includes ["AAAAAA"] "BBBBBB" = false /\
  generateUniqueShortcode late_random ["AAAAAA"] 6 empty_world
  = ("BBBBBBB", mkWorld None 0 613 0).
Proof. vm_compute. auto. Qed.

(** C3, the defect at work. [httpbin.org] has no protocol and passes the URL
    validator; it starts with [http], so it is stored as it is. *)
Example handleSubmit_keeps_bare_http_host :
  isValid (Validation.validateUrl "httpbin.org") = true /\
  ShortenedUrl.originalUrl <$>
    stored (handleSubmit ticking_clock counting_random accepts_all
              (batch [form "httpbin.org" 30 ""]) empty_world).2
  = ["httpbin.org"].
Proof. vm_compute. auto. Qed.

(** A store with one record, bound to [abcd]. *)
Definition one_record (expiryDate : option Z) (clicks : list ClickEvent) : ShortenedUrl :=
  ShortenedUrl.mk "1700000000000abc" "https://example.com" "abcd"
    1699999000000 expiryDate clicks.

Definition world_with (url : ShortenedUrl) : World :=
  mkWorld (Some (Encoded [url])) 0 0 0.

(** The scenarios of the specification for the resolver: a record that
    expired a second ago resolves as [expired] and keeps its clicks; an
    unknown code resolves as [not_found] and nothing is written. *)
Example expired_redirect :
  let url := one_record (Some (ticking_clock 0 - 1000)) [] in
  handleRedirect ticking_clock counting_random accepts_all (Some "abcd") (world_with url)
  = (Returned (mkRedirectPage expired None),
     mkWorld (Some (Encoded [url])) 1 0 0).
Proof. vm_compute. reflexivity. Qed.

Example not_found_redirect :
  let w := world_with (one_record (Some (ticking_clock 0 + 1000)) []) in
  handleRedirect ticking_clock counting_random accepts_all (Some "doesnotexist") w
  = (Returned (mkRedirectPage not_found None), w).
Proof. vm_compute. reflexivity. Qed.




Example three_clicks_recorded :
  let url := one_record None [mkClickEvent 1699999500000 "Direct" "Europe"] in
  ShortenedUrl.clicks <$>
    stored (recordClicks ticking_clock counting_random accepts_all 3 "abcd"
              (world_with url)).2
  = [[mkClickEvent 1699999500000 "Direct" "Europe";
      mkClickEvent 1700000000000 "Direct" "Europe";
      mkClickEvent 1700000000001 "Social Media" "South America";
      mkClickEvent 1700000000002 "Referral" "Oceania"]].
Proof. vm_compute. reflexivity. Qed.


Example three_creations_three_codes :
  codes (stored (submissions ticking_clock counting_random accepts_all
                   [[form "example.com" 30 ""; form "example.org" 60 ""];
                    [form "example.net" 30 ""]] empty_world))
  = ["ABCDEF"; "HIJKLM"; "OPQRST"].
Proof. vm_compute. reflexivity. Qed.

(** C10, counterexample. The clock advances between the reading kept as
    [creationDate] and the reading [expiryDate] is computed from: the record
    is created with an [expiryDate] that is not its [creationDate] plus
    [validityPeriod * 60000]. *)
Lemma expiry_is_not_creation_plus_period :
  exists url,
    stored (handleSubmit ticking_clock counting_random accepts_all
              (batch [form "example.com" 30 ""]) empty_world).2 = [url] /\
    ShortenedUrl.creationDate url = 1700000000001 /\
    ShortenedUrl.expiryDate url = Some (1700000000002 + 30 * 60000) /\
    ShortenedUrl.expiryDate url
    <> Some (ShortenedUrl.creationDate url + 30 * 60000).
Proof. eexists. vm_compute. split_and!; try reflexivity. discriminate. Qed.

(** Every code of [n] characters of the alphabet: the exclusion list of the
    escalation scenario, for [n = 6]. *)
Fixpoint all_codes (n : nat) : list string :=
  match n with
  | O => [EmptyString]
  | S k => a ← list_ascii_of_string chars; String a <$> all_codes k
  end.

Lemma all_codes_complete (n : nat) (c : string) : is_code n c -> c ∈ all_codes n.
Proof.
  revert c. induction n as [|k IH]; intros c [Hlen Hchars].
  - destruct c; [left|discriminate].
  - destruct c as [|a c]; [discriminate|].
    cbn [list_ascii_of_string] in Hchars. apply Forall_cons in Hchars as [Ha Hc].
    cbn [all_codes]. apply list_elem_of_bind. exists a. split; [|exact Ha].
    apply list_elem_of_fmap. exists c. split; [reflexivity|].
    apply IH. split; [|exact Hc]. simpl in Hlen. lia.
Qed.

Lemma all_codes_length (n : nat) (c : string) : c ∈ all_codes n -> String.length c = n.
Proof.
  revert c. induction n as [|k IH]; intros c.
  - intros ->%list_elem_of_singleton. reflexivity.
  - cbn [all_codes]. intros (a & Hc & _)%list_elem_of_bind.
    apply list_elem_of_fmap in Hc as (c' & -> & Hc'). simpl. f_equal. now apply IH.
Qed.

(** C6, witness: against every 6-character code, a 7-character code. *)
Lemma generateUniqueShortcode_witness :
  exists code w',
    generateUniqueShortcode counting_random (all_codes 6) 6 empty_world = (code, w') /\
    (code ∉ all_codes 6) /\
    String.length code = 7%nat.
Proof.
  destruct (proj2 (generateUniqueShortcode_terminates counting_random)
              (all_codes 6) empty_world (all_codes_complete 6))
    as (code & w' & Hrun & Hfree & _ & Hseven).
  exists code, w'. split_and!; [exact Hrun|exact Hfree|].
  apply Hseven. intros c Hc. apply all_codes_length in Hc. rewrite Hc. discriminate.
Defined.

(** * More of the code

    The rest of the store's interface, the validators, the generator, the
    click simulator, the rest of the submission form, the statistics page
    and the logger, with what each of them guarantees. *)

(** ** The store ([src/utils/dataStore.ts]) *)

Section Store.

Variable accepts : nat -> bool.







(** X8. A corrupt entry survives reads and is lost at the next write: on an
    entry whose text does not parse, [addUrl] leaves the one new record and
    [deleteUrl] an empty array (when the browser accepts the write), while
    [updateUrl] and [addClick] find nothing and leave the text in place. *)
Theorem corrupt_entry_is_overwritten (text : string) (now_calls random_calls writes : nat) :
  let w := mkWorld (Some (Corrupt text)) now_calls random_calls writes in
  (forall url,
     addUrl accepts url w =
     if accepts writes
     then (Returned tt, mkWorld (Some (Encoded [url])) now_calls random_calls (S writes))
     else (Thrown QuotaExceededError,
           mkWorld (Some (Corrupt text)) now_calls random_calls (S writes))) /\
  (forall id,
     deleteUrl accepts id w =
     if accepts writes
     then (Returned tt, mkWorld (Some (Encoded [])) now_calls random_calls (S writes))
     else (Thrown QuotaExceededError,
           mkWorld (Some (Corrupt text)) now_calls random_calls (S writes))) /\
  (forall url, updateUrl accepts url w = (Returned tt, w)) /\
  (forall code clickEvent, addClick accepts code clickEvent w = (Returned tt, w)).
Proof.
  cbv zeta. split_and!.
  - intros url. now rewrite addUrl_eq.
  - intros id. unfold deleteUrl. rewrite try_catch_rethrow. unfold bind.
    now rewrite getAllUrls_stored, setItem_eq.
  - intros url. now rewrite updateUrl_eq.
  - intros code clickEvent. now rewrite addClick_eq.
Qed.

End Store.

(** ** The click simulator and the resolver
    ([src/utils/clickSimulator.ts], [src/components/RedirectPage.tsx]) *)

Section Resolver.

Variable clock : nat -> Z.
Variable random : nat -> nat.
Variable accepts : nat -> bool.

Lemma label_in_range (labels : list string) (i : nat) :
  labels <> [] ->
  exists label,
    labels !! (i mod length labels)%nat = Some label /\ label ∈ labels.
Proof.
  intros Hne.
  destruct (lookup_lt_is_Some_2 labels (i mod length labels)%nat) as [label Hlabel].
  { apply Nat.mod_upper_bound. destruct labels; [contradiction|discriminate]. }
  exists label. split; [exact Hlabel|]. eapply list_elem_of_lookup_2, Hlabel.
Qed.

(** X9. [generateClickEvent] never yields an undefined label: the two indices
    it computes are in range, so [source] is one of [SOURCES], chosen by the
    first sample, and [geo] one of [GEOS], chosen by the second; the
    timestamp is the one reading of the clock it takes; storage is not
    touched. *)
Theorem generateClickEvent_labels_in_range (w : World) :
  let clickEvent := (generateClickEvent clock random w).1 in
  let w' := (generateClickEvent clock random w).2 in
  timestamp clickEvent = clock (now_calls w) /\
  SOURCES !! (random (random_calls w) mod length SOURCES)%nat = Some (source clickEvent) /\
  GEOS !! (random (S (random_calls w)) mod length GEOS)%nat = Some (geo clickEvent) /\
  source clickEvent ∈ SOURCES /\
  geo clickEvent ∈ GEOS /\
  w' = mkWorld (localStorage w) (S (now_calls w)) (S (S (random_calls w))) (setItem_calls w).
Proof.
  cbv zeta. unfold generateClickEvent, Date_now, Math_random_below. cbn [fst snd].
  destruct (label_in_range SOURCES (random (random_calls w))) as (s & Hs & Hsin);
    [discriminate|].
  destruct (label_in_range GEOS (random (S (random_calls w)))) as (g & Hg & Hgin);
    [discriminate|].
  cbn [random_calls timestamp source geo].
  rewrite Hs, Hg. cbn [default]. split_and!; auto.
Qed.


(** Whether a record counts as expired at a reading [now] of the clock:
    [url.expiryDate && now > url.expiryDate]. *)
Definition expired_at (now : Z) (url : ShortenedUrl) : bool :=
  match ShortenedUrl.expiryDate url with
  | Some expiryDate => negb (expiryDate =? 0) && (now >? expiryDate)
  | None => false
  end.

Lemma isExpired_expired_at (url : ShortenedUrl) (w : World) :
  exists w1,
    isExpired clock url w = (Returned (expired_at (clock (now_calls w)) url), w1) /\
    localStorage w1 = localStorage w /\
    random_calls w1 = random_calls w /\
    setItem_calls w1 = setItem_calls w /\
    (now_calls w <= now_calls w1 <= S (now_calls w))%nat.
Proof.
  rewrite isExpired_eq. unfold expired_at.
  destruct (ShortenedUrl.expiryDate url) as [e|].
  - destruct (e =? 0); eexists; (split; [reflexivity|]); simpl; split_and!; auto; lia.
  - eexists. split; [reflexivity|]. split_and!; auto; lia.
Qed.


End Resolver.

(** ** The validators ([src/utils/validation.ts]) *)

Section Validators.

Import RegExp RegExpFacts Validation.

(** The characters of a string, in order. *)
Abbreviation chars_of := list_ascii_of_string.

Lemma trimStart_empty (s : string) :
  Js.trimStart s = EmptyString <-> Forall (fun a => Js.is_space a = true) (chars_of s).
Proof.
  induction s as [|a s IH]; simpl.
  - split; [constructor|reflexivity].
  - destruct (Js.is_space a) eqn:Ha.
    + rewrite IH. split; [now constructor|]. now intros [_ ?]%Forall_cons.
    + split; [discriminate|]. intros [? _]%Forall_cons. congruence.
Qed.

Lemma trimStart_head (s : string) :
  Js.trimStart s = EmptyString \/
  exists a t, Js.trimStart s = String a t /\ Js.is_space a = false.
Proof.
  induction s as [|a s IH]; simpl; [auto|].
  destruct (Js.is_space a) eqn:Ha; [exact IH|eauto].
Qed.

Lemma trimEnd_head (a : ascii) (t : string) :
  Js.is_space a = false -> Js.trimEnd (String a t) <> EmptyString.
Proof. intros Ha. simpl. rewrite Ha. destruct (Js.trimEnd t); discriminate. Qed.

(** [s.trim()] is empty exactly when [s] is made of white space. *)
Lemma trim_empty (s : string) :
  Js.trim s = EmptyString <-> Forall (fun a => Js.is_space a = true) (chars_of s).
Proof.
  rewrite <- trimStart_empty. unfold Js.trim.
  destruct (trimStart_head s) as [->|(a & t & -> & Ha)].
  - split; reflexivity.
  - split; [|discriminate]. intros H. now apply trimEnd_head in H.
Qed.

Lemma truthy_trim (s : string) :
  Js.truthy (Js.trim s) = false <-> Forall (fun a => Js.is_space a = true) (chars_of s).
Proof.
  rewrite <- trim_empty. destruct (Js.trim s); simpl; split; congruence.
Qed.

(** Every class of the pattern holds characters of [P] only. *)
Fixpoint classes_within (P : ascii -> Prop) (r : RegExp.t) : Prop :=
  match r with
  | Never | Empty => True
  | Class p => forall a, p a = true -> P a
  | Seq r1 r2 | Alt r1 r2 => classes_within P r1 /\ classes_within P r2
  | Star r => classes_within P r
  end.

Lemma matches_within (P : ascii -> Prop) (r : RegExp.t) (s : string) :
  classes_within P r -> matches r s -> Forall P (chars_of s).
Proof.
  intros Hr Hm. induction Hm; simpl in *.
  - constructor.
  - constructor; [auto|constructor].
  - rewrite list_ascii_of_string_app. apply Forall_app. split; tauto.
  - tauto.
  - tauto.
  - constructor.
  - rewrite list_ascii_of_string_app. apply Forall_app. split; auto.
Qed.

Lemma matches_star_class (p : ascii -> bool) (s : string) :
  Forall (fun a => p a = true) (chars_of s) -> matches (Star (Class p)) s.
Proof.
  induction s as [|a s IH]; simpl; intros H; [constructor|].
  apply Forall_cons in H as [Ha Hs].
  apply (matches_star_app (Class p) (String a EmptyString) s); [now constructor|auto].
Qed.

(** The language of "[c]+" for a class [c]. *)
Lemma matches_plus_class (p : ascii -> bool) (s : string) :
  matches (plus (Class p)) s <->
  s <> EmptyString /\ Forall (fun a => p a = true) (chars_of s).
Proof.
  split.
  - intros Hm. split.
    + inversion Hm as [| |r1 r2 s1 s2 H1 H2| | | |]; subst.
      inversion H1; subst. discriminate.
    + apply (matches_within (fun a => p a = true)) in Hm; [exact Hm|].
      simpl. auto.
  - intros [Hne Hall]. destruct s as [|a s]; [contradiction|].
    simpl in Hall. apply Forall_cons in Hall as [Ha Hs].
    apply (matches_seq (Class p) (Star (Class p)) (String a EmptyString) s).
    + now constructor.
    + now apply matches_star_class.
Qed.

Lemma string_length_chars (s : string) : String.length s = length (chars_of s).
Proof. induction s as [|a s IH]; simpl; congruence. Qed.

(** X12. [validateShortcode] accepts a string exactly when it is made of
    white space only (the field is optional; the empty string is the usual
    case), or made of 4 to 10 letters and digits.  A string with another
    character gets the letters-and-numbers message, whatever its length; the
    length message is for strings of letters and digits only. *)
Theorem validateShortcode_accepts_iff (shortcode : string) :
  let blank := Forall (fun a => Js.is_space a = true) (chars_of shortcode) in
  let alphanumeric := Forall (fun a => alnum a = true) (chars_of shortcode) in
  (validateShortcode shortcode = mkValidationResult true EmptyString <->
   blank \/ (alphanumeric /\ 4 <= String.length shortcode <= 10)%nat) /\
  (validateShortcode shortcode
   = mkValidationResult false "Shortcode must contain only letters and numbers" <->
   ~ blank /\ ~ alphanumeric) /\
  (validateShortcode shortcode
   = mkValidationResult false "Shortcode must be 4-10 characters long" <->
   ~ blank /\ alphanumeric /\ (String.length shortcode < 4 \/ 10 < String.length shortcode)%nat).
Proof.
  cbv zeta. unfold validateShortcode.
  pose proof (truthy_trim shortcode) as Hblank.
  pose proof (test_spec shortcodePattern shortcode) as Htest.
  unfold shortcodePattern in Htest at 2. rewrite matches_plus_class in Htest.
  destruct (Js.truthy (Js.trim shortcode)) eqn:Htrim; cbn [negb].
  - assert (Hnb : ~ Forall (fun a => Js.is_space a = true) (chars_of shortcode)).
    { intros H. apply Hblank in H. discriminate. }
    assert (Hne : shortcode <> EmptyString).
    { intros ->. apply Hnb. constructor. }
    destruct (test shortcodePattern shortcode) eqn:Ht; cbn [negb].
    + assert (Hal : Forall (fun a => alnum a = true) (chars_of shortcode))
        by now apply Htest.
      destruct (Nat.ltb_spec (String.length shortcode) 4) as [H4|H4]; cbn [orb];
        [|destruct (Nat.ltb_spec 10 (String.length shortcode)) as [H10|H10]];
        intuition (first [discriminate | lia | reflexivity | idtac]).
    + assert (Hal : ~ Forall (fun a => alnum a = true) (chars_of shortcode)).
      { intros H. assert (false = true) by (apply Htest; auto). discriminate. }
      intuition (first [discriminate | reflexivity | idtac]).
  - assert (Hb : Forall (fun a => Js.is_space a = true) (chars_of shortcode))
      by now apply Hblank.
    intuition (first [discriminate | reflexivity | idtac]).
Qed.

(** The alphabet of the generator is the class of the shortcode pattern. *)
Lemma alnum_chars (a : ascii) : alnum a = true <-> a ∈ chars_of chars.
Proof.
  assert (H : alnum a = bool_decide (a ∈ chars_of chars))
    by (destruct a as [[] [] [] [] [] [] [] []]; vm_compute; reflexivity).
  rewrite H. apply bool_decide_eq_true.
Qed.

Lemma alnum_not_space (a : ascii) : alnum a = true -> Js.is_space a = false.
Proof. destruct a as [[] [] [] [] [] [] [] []]; vm_compute; congruence. Qed.

(** On a string of letters and digits only the length is left to check. *)
Lemma validateShortcode_alphanumeric (c : string) :
  Forall (fun a => alnum a = true) (chars_of c) ->
  validateShortcode c =
  if (0 <? String.length c)%nat && ((String.length c <? 4)%nat || (10 <? String.length c)%nat)
  then mkValidationResult false "Shortcode must be 4-10 characters long"
  else mkValidationResult true EmptyString.
Proof.
  intros Hal. destruct c as [|a c]; [reflexivity|].
  unfold validateShortcode.
  assert (Htrim : Js.truthy (Js.trim (String a c)) = true).
  { destruct (Js.truthy _) eqn:Ht; [reflexivity|].
    apply truthy_trim in Ht. simpl in Ht, Hal.
    apply Forall_cons in Ht as [Hs _]. apply Forall_cons in Hal as [Ha _].
    apply alnum_not_space in Ha. congruence. }
  assert (Htest : test shortcodePattern (String a c) = true).
  { apply test_spec, matches_plus_class. split; [discriminate|exact Hal]. }
  rewrite Htrim, Htest. reflexivity.
Qed.

Variable random : nat -> nat.

(** X13. The generator and the validator agree on what a code is: a
    generated code is made of letters and digits, so [validateShortcode]
    accepts it exactly when its length is 4 to 10 (or 0, the empty field).
    The code [generateUniqueShortcode] hands to the submission flow is
    accepted as long as no excluded code has more than 9 characters. *)
Theorem generated_codes_are_valid_shortcodes :
  (forall (len : nat) (w : World),
     isValid (validateShortcode (generateShortcode random len w).1) = true <->
     (len = 0 \/ 4 <= len <= 10)%nat) /\
  (forall (existingCodes : list string) (w : World),
     (longest existingCodes <= 9)%nat ->
     validateShortcode (generateUniqueShortcode random existingCodes 6 w).1
     = mkValidationResult true EmptyString).
Proof.
  assert (Hcode : forall n c, is_code n c ->
            validateShortcode c =
            if (0 <? n)%nat && ((n <? 4)%nat || (10 <? n)%nat)
            then mkValidationResult false "Shortcode must be 4-10 characters long"
            else mkValidationResult true EmptyString).
  { intros n c [<- Hchars]. apply validateShortcode_alphanumeric.
    eapply Forall_impl; [exact Hchars|]. intros a. apply alnum_chars. }
  split.
  - intros len w. rewrite (Hcode len _ (generateShortcode_is_code random len w)).
    destruct (Nat.ltb_spec 0 len), (Nat.ltb_spec len 4), (Nat.ltb_spec 10 len);
      simpl; split; intros; try discriminate; try reflexivity; lia.
  - intros existingCodes w Hlongest.
    destruct (generateUniqueShortcode_spec random existingCodes 6 w) as (_ & Hlen & Hcode' & _).
    rewrite (Hcode _ _ Hcode'). cbv zeta in Hlen.
    destruct (Nat.ltb_spec (String.length (generateUniqueShortcode random existingCodes 6 w).1) 4),
             (Nat.ltb_spec 10 (String.length (generateUniqueShortcode random existingCodes 6 w).1));
      try lia. now rewrite andb_false_r.
Qed.

(** *** The URL pattern *)

Ltac by_character a :=
  destruct a as [[] [] [] [] [] [] [] []]; vm_compute; intros;
  first [discriminate | reflexivity | left; reflexivity | right; reflexivity].

(** The characters the URL pattern can read: those of its last class
    (letters, digits, [_], [/], [.], [-] and the space) and the colon of the
    protocol. *)
Definition url_char (a : ascii) : Prop := path_char a = true \/ a = ":"%char.

Lemma urlPattern_classes : classes_within url_char urlPattern.
Proof.
  unfold urlPattern, url_char. cbn.
  repeat split; intros a; by_character a.
Qed.

Lemma matches_urlPattern_dot (url : string) :
  matches urlPattern url -> "."%char ∈ chars_of url.
Proof.
  unfold urlPattern. intros Hm.
  inversion Hm as [| |? ? protocol rest1 _ H1| | | |]; subst.
  inversion H1 as [| |? ? host rest2 _ H2| | | |]; subst.
  inversion H2 as [| |? ? dot rest3 H3 _| | | |]; subst.
  inversion H3 as [|? a Ha| | | | |]; subst.
  apply bool_decide_eq_true in Ha. subst a.
  rewrite !list_ascii_of_string_app. simpl.
  apply elem_of_app. right. apply elem_of_app. right. left.
Qed.

(** X14. What [validateUrl] accepts is not blank, holds a dot, and is
    written with letters, digits, [_], [/], [.], [-], the space and the
    colon only: an address with a query string, a fragment or an escape
    ([?], [#], [=], [&], [%]) is turned down, and so is a host without a
    dot. *)
Theorem validateUrl_accepted_shape (url : string) :
  isValid (validateUrl url) = true ->
  validateUrl url = mkValidationResult true EmptyString /\
  Forall url_char (chars_of url) /\
  "."%char ∈ chars_of url /\
  ~ Forall (fun a => Js.is_space a = true) (chars_of url).
Proof.
  unfold validateUrl.
  destruct (Js.truthy (Js.trim url)) eqn:Htrim; cbn [negb]; [|discriminate].
  destruct (test urlPattern url) eqn:Htest; cbn [negb]; [|discriminate].
  intros _. apply test_spec in Htest. split_and!.
  - reflexivity.
  - apply (matches_within url_char urlPattern url urlPattern_classes Htest).
  - now apply matches_urlPattern_dot.
  - intros Hblank. apply truthy_trim in Hblank. congruence.
Qed.

Lemma matches_lit (s : string) : matches (lit s) s.
Proof.
  induction s as [|a s IH]; simpl; [constructor|].
  apply (matches_seq (chr a) (lit s) (String a EmptyString) s); [|exact IH].
  constructor. now apply bool_decide_eq_true.
Qed.

Lemma string_app_nil_r (s : string) : s +:+ EmptyString = s.
Proof.
  induction s as [|a s IH]; [reflexivity|].
  change (String a (s +:+ EmptyString) = String a s). now f_equal.
Qed.

Lemma matches_seq_nil_r (r1 r2 : RegExp.t) (s : string) :
  matches r1 s -> matches r2 EmptyString -> matches (Seq r1 r2) s.
Proof.
  intros H1 H2. rewrite <- (string_app_nil_r s). now constructor.
Qed.

Lemma matches_upto_class (p : ascii -> bool) (extra : nat) (s : string) :
  (String.length s <= extra)%nat ->
  Forall (fun a => p a = true) (chars_of s) ->
  matches (upto extra (Class p)) s.
Proof.
  revert s. induction extra as [|extra IH]; intros s Hlen Hall.
  - destruct s; [constructor|simpl in Hlen; lia].
  - destruct s as [|a s]; [apply matches_alt_r; constructor|].
    simpl in Hlen, Hall. apply Forall_cons in Hall as [Ha Hs].
    apply matches_alt_l.
    apply (matches_seq (Class p) (upto extra (Class p)) (String a EmptyString) s).
    + now constructor.
    + apply IH; [lia|exact Hs].
Qed.

(** The language of "[c]{lo,lo+extra}" holds the strings of that many
    characters of the class. *)
Lemma matches_times_class (p : ascii -> bool) (lo extra : nat) (s : string) :
  (lo <= String.length s <= lo + extra)%nat ->
  Forall (fun a => p a = true) (chars_of s) ->
  matches (times lo extra (Class p)) s.
Proof.
  intros Hlen Hall.
  assert (Hsplit : exists s1 s2,
            s = s1 +:+ s2 /\ matches (exactly lo (Class p)) s1 /\
            matches (upto extra (Class p)) s2).
  { revert s Hlen Hall. induction lo as [|lo IH]; intros s Hlen Hall.
    - exists EmptyString, s. split_and!; [reflexivity|constructor|].
      apply matches_upto_class; [lia|exact Hall].
    - destruct s as [|a s]; [simpl in Hlen; lia|].
      simpl in Hlen, Hall. apply Forall_cons in Hall as [Ha Hs].
      destruct (IH s) as (s1 & s2 & -> & H1 & H2); [lia|exact Hs|].
      exists (String a s1), s2. split_and!; [reflexivity| |exact H2].
      apply (matches_seq (Class p) (exactly lo (Class p)) (String a EmptyString) s1);
        [now constructor|exact H1]. }
  destruct Hsplit as (s1 & s2 & -> & H1 & H2). now constructor.
Qed.

Lemma host_char_not_space (a : ascii) : host_char a = true -> Js.is_space a = false.
Proof. by_character a. Qed.

(** X15. [validateUrl] accepts every address of the usual shape: an optional
    [http://] or [https://], a host of lower-case letters, digits, dots and
    hyphens, a dot, a top-level part of 2 to 6 lower-case letters or dots,
    and a path of letters, digits, [_], [/], [.], [-] and spaces. *)
Theorem validateUrl_accepts_plain_addresses (protocol host tld path : string) :
  protocol ∈ [EmptyString; "http://"; "https://"] ->
  host <> EmptyString ->
  Forall (fun a => host_char a = true) (chars_of host) ->
  (2 <= String.length tld <= 6)%nat ->
  Forall (fun a => tld_char a = true) (chars_of tld) ->
  Forall (fun a => path_char a = true) (chars_of path) ->
  validateUrl (protocol +:+ (host +:+ ("." +:+ (tld +:+ path))))
  = mkValidationResult true EmptyString.
Proof.
  intros Hprotocol Hne Hhost Hlen Htld Hpath. unfold validateUrl.
  assert (Htrim : Js.truthy (Js.trim (protocol +:+ (host +:+ ("." +:+ (tld +:+ path)))))
                  = true).
  { destruct (Js.truthy _) eqn:Ht; [reflexivity|].
    apply truthy_trim in Ht. rewrite !list_ascii_of_string_app in Ht.
    apply Forall_app in Ht as [_ Ht]. apply Forall_app in Ht as [Ht _].
    destruct host as [|a host]; [contradiction|].
    simpl in Ht, Hhost. apply Forall_cons in Ht as [Hs _].
    apply Forall_cons in Hhost as [Ha _]. apply host_char_not_space in Ha. congruence. }
  assert (Htest : test urlPattern (protocol +:+ (host +:+ ("." +:+ (tld +:+ path)))) = true).
  { apply test_spec. unfold urlPattern. constructor; [|constructor; [|constructor]].
    - apply elem_of_cons in Hprotocol as [->|Hprotocol]; [apply matches_alt_r; constructor|].
      apply matches_alt_l.
      apply elem_of_cons in Hprotocol as [->|Hprotocol].
      + apply (matches_seq (lit "http") _ "http" "://"); [apply matches_lit|].
        apply (matches_seq (opt (chr "s")) (lit "://") EmptyString "://");
          [apply matches_alt_r; constructor|apply matches_lit].
      + apply list_elem_of_singleton in Hprotocol as ->.
        apply (matches_seq (lit "http") _ "http" "s://"); [apply matches_lit|].
        apply (matches_seq (opt (chr "s")) (lit "://") "s" "://");
          [apply matches_alt_l; now constructor|apply matches_lit].
    - apply matches_plus_class. auto.
    - now constructor.
    - constructor; [now apply matches_times_class|].
      apply matches_seq_nil_r; [|apply matches_alt_r; constructor].
      rewrite <- (string_app_nil_r path).
      constructor; [now apply matches_star_class|constructor]. }
  now rewrite Htrim, Htest.
Qed.

End Validators.

(** ** The code generator ([src/utils/shortcodeGenerator.ts]) *)

Section Generator.

Variable random : nat -> nat.

Lemma generateShortcode_loop_draws (remaining : nat) (result : string) (w : World) :
  random_calls (generateShortcode_loop random remaining result w).2
  = (random_calls w + remaining)%nat.
Proof.
  revert result w. induction remaining as [|k IH]; intros result w.
  - simpl. lia.
  - cbn [generateShortcode_loop]. unfold Math_random_below. rewrite IH. simpl. lia.
Qed.

Lemma charAt_get (s : string) (i : nat) :
  (i < String.length s)%nat -> String.get 0 (Js.charAt s i) = String.get i s.
Proof.
  intros Hi. unfold Js.charAt. destruct (string_get_lt s i Hi) as [c ->]. reflexivity.
Qed.

Lemma string_get_ge (s : string) (i : nat) :
  (String.length s <= i)%nat -> String.get i s = None.
Proof.
  revert i. induction s as [|a s IH]; intros i Hi; [reflexivity|].
  destruct i as [|i]; simpl in *; [lia|]. apply IH. lia.
Qed.

(** The characters of the result: those of [result] so far, then one per
    sample, in the order of the samples. *)
Lemma generateShortcode_loop_get (remaining : nat) (result : string) (w : World) (i : nat) :
  String.get i (generateShortcode_loop random remaining result w).1 =
  if (i <? String.length result)%nat then String.get i result
  else if (i <? String.length result + remaining)%nat
       then String.get
              (random (random_calls w + (i - String.length result)) mod String.length chars)
              chars
       else None.
Proof.
  revert result w. induction remaining as [|k IH]; intros result w.
  - cbn [generateShortcode_loop fst]. rewrite Nat.add_0_r.
    destruct (Nat.ltb_spec i (String.length result)); [reflexivity|].
    now apply string_get_ge.
  - cbn [generateShortcode_loop]. unfold Math_random_below. rewrite IH.
    cbn [random_calls].
    assert (Hj : (random (random_calls w) mod String.length chars < String.length chars)%nat)
      by (apply Nat.mod_upper_bound; discriminate).
    rewrite string_length_app, (charAt_length _ _ Hj).
    destruct (Nat.ltb_spec i (String.length result)) as [Hlt|Hge].
    + destruct (Nat.ltb_spec i (String.length result + 1)); [|lia].
      symmetry. now apply append_correct1.
    + destruct (Nat.ltb_spec i (String.length result + S k)) as [Hin|Hout].
      * destruct (Nat.ltb_spec i (String.length result + 1)) as [Hhere|Hlater].
        -- assert (i = (0 + String.length result)%nat) as -> by lia.
           rewrite <- append_correct2, (charAt_get _ _ Hj).
           now replace (random_calls w + (0 + String.length result - String.length result))%nat
             with (random_calls w) by lia.
        -- destruct (Nat.ltb_spec i (String.length result + 1 + k)); [|lia].
           do 2 f_equal. f_equal. lia.
      * destruct (Nat.ltb_spec i (String.length result + 1)); [lia|].
        destruct (Nat.ltb_spec i (String.length result + 1 + k)); [lia|reflexivity].
Qed.

(** X16. [generateShortcode(length)] reads one sample per character: the
    result has [length] characters, the [i]-th of them is the character of
    the alphabet at the index the [i]-th sample gives, and the call leaves
    the world as it was apart from the [length] samples it drew. *)
Theorem generateShortcode_one_sample_per_character (len : nat) (w : World) :
  String.length (generateShortcode random len w).1 = len /\
  (forall i, (i < len)%nat ->
     String.get i (generateShortcode random len w).1
     = String.get (random (random_calls w + i) mod String.length chars) chars) /\
  (forall i, (i < len)%nat ->
     exists a, String.get i (generateShortcode random len w).1 = Some a /\
               a ∈ list_ascii_of_string chars) /\
  (generateShortcode random len w).2
  = mkWorld (localStorage w) (now_calls w) (random_calls w + len) (setItem_calls w).
Proof.
  assert (Hget : forall i, (i < len)%nat ->
     String.get i (generateShortcode random len w).1
     = String.get (random (random_calls w + i) mod String.length chars) chars).
  { intros i Hi. unfold generateShortcode. rewrite generateShortcode_loop_get.
    cbn [String.length]. destruct (Nat.ltb_spec i 0); [lia|].
    destruct (Nat.ltb_spec i (0 + len)); [|lia].
    do 2 f_equal. f_equal. lia. }
  split_and!.
  - apply generateShortcode_length.
  - exact Hget.
  - intros i Hi. rewrite (Hget i Hi).
    destruct (string_get_lt chars (random (random_calls w + i) mod String.length chars))
      as [a Ha]; [apply Nat.mod_upper_bound; discriminate|].
    exists a. split; [exact Ha|]. eapply string_get_Some, Ha.
  - pose proof (generateShortcode_only_drew random len w) as (Hls & Hnc & Hsc).
    pose proof (generateShortcode_loop_draws len EmptyString w) as Hrc.
    fold (generateShortcode random len w) in Hrc.
    destruct (generateShortcode random len w) as [code [ls nc rc sc]].
    simpl in *. congruence.
Qed.

Lemma drawn_random_calls (len n : nat) (w : World) :
  random_calls (drawn random len n w) = (random_calls w + n * len)%nat.
Proof.
  induction n as [|n IH]; simpl; [lia|].
  unfold generateShortcode. rewrite generateShortcode_loop_draws, IH. lia.
Qed.

(** X17. [generateUniqueShortcode] looks at the first hundred candidates of
    the requested length, in the order they are drawn: the first free one
    among them is returned, after [(n + 1) * length] samples when it is
    candidate [n]; when all hundred collide, one more candidate is drawn and
    not looked at, and the search starts again one character longer. *)
Theorem generateUniqueShortcode_scans_hundred_candidates
  (existingCodes : list string) (len : nat) (w : World) :
  (forall n,
     (n < maxAttempts)%nat ->
     (forall m, (m < n)%nat -> candidate random len m w ∈ existingCodes) ->
     candidate random len n w ∉ existingCodes ->
     generateUniqueShortcode random existingCodes len w
     = (candidate random len n w, drawn random len (S n) w) /\
     random_calls (drawn random len (S n) w) = (random_calls w + (n + 1) * len)%nat) /\
  ((forall m, (m < maxAttempts)%nat -> candidate random len m w ∈ existingCodes) ->
   generateUniqueShortcode random existingCodes len w
   = generateUniqueShortcode random existingCodes (len + 1)
       (drawn random len (S maxAttempts) w) /\
   random_calls (drawn random len (S maxAttempts) w)
   = (random_calls w + (maxAttempts + 1) * len)%nat).
Proof.
  split.
  - intros n Hn Hcoll Hfree. split.
    + apply generateUniqueShortcode_first_free; [exact Hn| |now apply includes_false].
      intros m Hm. now apply includes_true, Hcoll.
    + rewrite drawn_random_calls. lia.
  - intros Hcoll. split.
    + apply generateUniqueShortcode_hundredth_retry_dropped.
      intros m Hm. now apply includes_true, Hcoll.
    + rewrite drawn_random_calls. lia.
Qed.

End Generator.

(** ** The submission form ([src/components/UrlForm.tsx]) *)

Section Submission.

Variable clock : nat -> Z.
Variable random : nat -> nat.
Variable accepts : nat -> bool.

Import Validation.



(** A preferred shortcode that is bound to a stored record. *)
Definition taken (form : UrlFormData) (w : World) : bool :=
  Js.truthy (UrlFormData.preferredShortcode form) &&
  includes (codes (stored w)) (UrlFormData.preferredShortcode form).




(** *** What a batch commits *)







(** X21. With a clock that does not run backwards and reads no negative
    time, no record of the submission flow is taken for one that never
    expires: its [expiryDate] is not [0], and it lies at least one minute
    after [creationDate] and at most 525600 minutes after the reading of the
    clock that follows the one kept as [creationDate]. *)
Theorem handleSubmit_expiry_window (st : UrlForm) (w : World) :
  (forall k, 0 <= clock k) ->
  (forall k, clock k <= clock (S k)) ->
  exists committed,
    stored (handleSubmit clock random accepts st w).2 = stored w ++ committed /\
    Forall (fun url =>
              exists k e,
                ShortenedUrl.creationDate url = clock k /\
                ShortenedUrl.expiryDate url = Some e /\
                e <> 0 /\
                ShortenedUrl.creationDate url + 60000 <= e /\
                clock (S k) + 60000 <= e <= clock (S k) + 525600 * 60000)
           committed.
Proof.
  intros Hpos Hmono.
  destruct (handleSubmit_spec clock random accepts st w)
    as (passed & committed & (_ & Hcreated & _ & Hstored & _) & _).
  exists committed. split; [exact Hstored|].
  apply Forall2_Forall_r in Hcreated.
  eapply Forall_impl; [exact Hcreated|].
  intros url (form & _ & (_ & Hperiod & _) & _ & _ & (k & Hcreation & Hexpiry) & _).
  exists k, (clock (S k) + UrlFormData.validityPeriod form * 60 * 1000).
  unfold validateValidityPeriod in Hperiod.
  destruct (Z.leb_spec (UrlFormData.validityPeriod form) 0); [discriminate|].
  destruct (Z.gtb_spec (UrlFormData.validityPeriod form) 525600); [discriminate|].
  pose proof (Hpos (S k)). pose proof (Hmono k).
  split_and!; [assumption|assumption|lia..].
Qed.

(** *** The list of forms *)

(** [forms.filter((_, i) => i !== index)], from position [i] on. *)
Fixpoint filter_out_index {A} (index i : nat) (l : list A) : list A :=
  match l with
  | [] => []
  | x :: l' =>
      if negb (i =? index)%nat then x :: filter_out_index index (S i) l'
      else filter_out_index index (S i) l'
  end.

Definition addForm (st : UrlForm) : UrlForm :=
  if (length (forms st) <? 5)%nat
  then mkUrlForm (forms st ++ [blank_form]) (results st) (isProcessing st) (errors st)
  else st.

Definition removeForm (index : nat) (st : UrlForm) : UrlForm :=
  if (1 <? length (forms st))%nat
  then mkUrlForm (filter_out_index index 0 (forms st)) (results st) (isProcessing st)
         (errors st)
  else st.

(** What the user can do with the list of forms: add one, remove one, submit. *)
Inductive Action : Type :=
| AddForm
| RemoveForm (index : nat)
| Submit.

Definition act (s : UrlForm * World) (a : Action) : UrlForm * World :=
  match a with
  | AddForm => (addForm s.1, s.2)
  | RemoveForm index => (removeForm index s.1, s.2)
  | Submit => handleSubmit clock random accepts s.1 s.2
  end.

Lemma filter_out_index_past {A} (index i : nat) (l : list A) :
  (index < i)%nat -> filter_out_index index i l = l.
Proof.
  revert i. induction l as [|x l IH]; intros i Hi; [reflexivity|].
  cbn [filter_out_index]. destruct (Nat.eqb_spec i index); [lia|].
  cbn [negb]. f_equal. apply IH. lia.
Qed.

(** Filtering out one index removes the element at that position. *)
Lemma filter_out_index_delete {A} (index i : nat) (l : list A) :
  filter_out_index (i + index) i l = delete index l.
Proof.
  revert index i. induction l as [|x l IH]; intros index i; [now destruct index|].
  cbn [filter_out_index]. destruct index as [|index].
  - rewrite Nat.add_0_r, Nat.eqb_refl. cbn [negb].
    apply filter_out_index_past. lia.
  - destruct (Nat.eqb_spec i (i + S index)); [lia|]. cbn [negb].
    change (delete (S index) (x :: l)) with (x :: delete index l). f_equal.
    replace (i + S index)%nat with (S i + index)%nat by lia. apply IH.
Qed.

Lemma delete_past_end {A} (l : list A) (i : nat) :
  (length l <= i)%nat -> delete i l = l.
Proof.
  intros Hi. rewrite delete_take_drop, take_ge, drop_ge by lia. apply app_nil_r.
Qed.

Lemma handleSubmit_forms (st : UrlForm) (w : World) :
  forms (handleSubmit clock random accepts st w).1 = [blank_form] \/
  forms (handleSubmit clock random accepts st w).1 = forms st.
Proof.
  unfold handleSubmit.
  destruct (handleSubmit_loop _ _ _ _ _ _ _) as [[p|e] w']; [|now right].
  destruct (hasErrors p); simpl; auto.
Qed.

(** X22. The component always shows between one and five forms: whatever the
    user does (add a form, remove the form at some position, submit), and
    however the submissions end, the list of forms keeps between 1 and 5
    entries. *)
Theorem form_list_stays_between_one_and_five
  (actions : list Action) (st : UrlForm) (w : World) :
  (1 <= length (forms st) <= 5)%nat ->
  (1 <= length (forms (foldl act (st, w) actions).1) <= 5)%nat.
Proof.
  revert st w. induction actions as [|a actions IH]; intros st w Hst; [exact Hst|].
  cbn [foldl]. destruct (act (st, w) a) as [st' w'] eqn:Hact. apply IH.
  destruct a as [|index|]; cbn [act fst snd] in Hact.
  - injection Hact as <- _. unfold addForm.
    destruct (Nat.ltb_spec (length (forms st)) 5); [|exact Hst].
    cbn [forms]. rewrite length_app. simpl. lia.
  - injection Hact as <- _. unfold removeForm.
    destruct (Nat.ltb_spec 1 (length (forms st))); [|exact Hst].
    cbn [forms]. rewrite (filter_out_index_delete index 0).
    destruct (decide (index < length (forms st))%nat) as [Hin|Hout].
    + apply lookup_lt_is_Some_2 in Hin. rewrite length_delete by exact Hin. lia.
    + rewrite delete_past_end by lia. exact Hst.
  - destruct (handleSubmit_forms st w) as [H|H];
      rewrite Hact in H; cbn [fst] in H; rewrite H; [simpl; lia|exact Hst].
Qed.

(** X23. [removeForm] takes out the form at the given position and nothing
    else, when more than one form is shown; a position past the end takes
    out nothing; and removing the form [addForm] has just appended gives the
    component back as it was. *)
Theorem removeForm_deletes_position (index : nat) (st : UrlForm) :
  forms (removeForm index st)
  = (if (1 <? length (forms st))%nat then delete index (forms st) else forms st) /\
  ((length (forms st) <= index)%nat -> forms (removeForm index st) = forms st) /\
  ((1 <= length (forms st) < 5)%nat ->
   removeForm (length (forms st)) (addForm st) = st).
Proof.
  assert (Hforms : forms (removeForm index st)
    = (if (1 <? length (forms st))%nat then delete index (forms st) else forms st)).
  { unfold removeForm. destruct (1 <? length (forms st))%nat; [|reflexivity].
    cbn [forms]. apply (filter_out_index_delete index 0). }
  split_and!.
  - exact Hforms.
  - intros Hout. rewrite Hforms. destruct (1 <? _)%nat; [|reflexivity].
    now apply delete_past_end.
  - intros Hlen. unfold addForm, removeForm.
    destruct (Nat.ltb_spec (length (forms st)) 5); [|lia].
    cbn [forms results isProcessing errors]. rewrite length_app. cbn [length].
    destruct (Nat.ltb_spec 1 (length (forms st) + 1)); [|lia].
    rewrite (filter_out_index_delete (length (forms st)) 0).
    rewrite delete_middle, app_nil_r. now destruct st.
Qed.

End Submission.

(** ** The statistics page ([src/components/Statistics.tsx]) *)

Section Statistics.

Variable clock : nat -> Z.
Variable accepts : nat -> bool.

Local Open Scope eff_scope.

(** [urls.filter(u => keep(u))] for a predicate that reads the clock: the
    records are tested in order, one call each. *)
Fixpoint filter_eff (keep : ShortenedUrl -> Eff bool) (urls : list ShortenedUrl)
  : Eff (list ShortenedUrl) :=
  match urls with
  | [] => ret []
  | u :: urls =>
      kept <- keep u ;;
      rest <- filter_eff keep urls ;;
      ret (if kept : bool then u :: rest else rest)
  end.

(** The four counters at the top of the page, in the order the page computes
    them; [isExpired] is the page's own copy of the test of the resolver. *)
Record Summary : Type := mkSummary {
  totalUrls : nat;
  activeUrls : nat;
  expiredUrls : nat;
  totalClicks : nat
}.

Definition countClicks (urls : list ShortenedUrl) : nat :=
  foldl (fun total url => (total + length (ShortenedUrl.clicks url))%nat) 0%nat urls.

Definition summary (urls : list ShortenedUrl) : Eff Summary :=
  active <- filter_eff (fun u => is_expired <- isExpired clock u ;; ret (negb is_expired)) urls ;;
  expired <- filter_eff (isExpired clock) urls ;;
  ret (mkSummary (length urls) (length active) (length expired) (countClicks urls)).

(** [getUniqueStats(url)] *)
Definition getUniqueStats (url : ShortenedUrl) : nat * nat :=
  let sources : gset string := list_to_set (source <$> ShortenedUrl.clicks url) in
  let geos : gset string := list_to_set (geo <$> ShortenedUrl.clicks url) in
  (size sources, size geos).

(** [toggleExpanded(id)]: the new value of [expandedUrls]. *)
Definition toggleExpanded (id : string) (expandedUrls : gset string) : gset string :=
  let newExpanded := expandedUrls in
  if bool_decide (id ∈ newExpanded) then newExpanded ∖ {[id]} else newExpanded ∪ {[id]}.

Lemma expired_at_later (t t' : Z) (url : ShortenedUrl) :
  t <= t' -> expired_at t url = true -> expired_at t' url = true.
Proof.
  unfold expired_at. destruct (ShortenedUrl.expiryDate url) as [e|]; [|discriminate].
  destruct (e =? 0); [discriminate|]. cbn [negb andb].
  destruct (Z.gtb_spec t e), (Z.gtb_spec t' e); auto; lia.
Qed.

(** Between two worlds only the clock was read. *)
Definition only_read_clock (w w' : World) : Prop :=
  localStorage w' = localStorage w /\
  random_calls w' = random_calls w /\
  setItem_calls w' = setItem_calls w /\
  (now_calls w <= now_calls w')%nat.

Lemma only_read_clock_trans (w1 w2 w3 : World) :
  only_read_clock w1 w2 -> only_read_clock w2 w3 -> only_read_clock w1 w3.
Proof.
  unfold only_read_clock. intros (?&?&?&?) (?&?&?&?). split_and!; try congruence. lia.
Qed.

Lemma filter_eff_ext (f g : ShortenedUrl -> Eff bool) (urls : list ShortenedUrl) (w : World) :
  (forall u v, f u v = g u v) -> filter_eff f urls w = filter_eff g urls w.
Proof.
  intros Hfg. revert w. induction urls as [|u urls IH]; intros w; [reflexivity|].
  cbn [filter_eff]. unfold bind. rewrite Hfg.
  destruct (g u w) as [[b|e] w1]; [|reflexivity]. now rewrite IH.
Qed.

(** The records expired, and the records not expired, at a time [t]. *)
Definition expired_by (t : Z) (wanted : bool) (urls : list ShortenedUrl)
  : list ShortenedUrl :=
  filter (fun u => expired_at t u = wanted) urls.

Lemma expired_by_split (t : Z) (urls : list ShortenedUrl) :
  (length (expired_by t false urls) + length (expired_by t true urls))%nat = length urls.
Proof.
  unfold expired_by. induction urls as [|u urls IH]; [reflexivity|].
  rewrite !filter_cons.
  destruct (expired_at t u); repeat case_decide; try congruence; simpl; lia.
Qed.

Lemma expired_by_later (t t' : Z) (urls : list ShortenedUrl) :
  t <= t' ->
  (length (expired_by t true urls) <= length (expired_by t' true urls))%nat /\
  (length (expired_by t' false urls) <= length (expired_by t false urls))%nat.
Proof.
  intros Ht.
  assert (Hlater : (length (expired_by t true urls)
                    <= length (expired_by t' true urls))%nat).
  { unfold expired_by. induction urls as [|u urls IH]; [reflexivity|].
    rewrite !filter_cons. pose proof (expired_at_later t t' u Ht).
    repeat case_decide; simpl; try lia. exfalso. auto. }
  pose proof (expired_by_split t urls). pose proof (expired_by_split t' urls). lia.
Qed.

(** One pass of [filter] with the expiry test, keeping the expired records
    ([wanted = true]) or the others: the clock is read and nothing else; with
    a clock that does not run backwards, every record expired when the pass
    starts counts as expired, and every record not expired when it ends
    counts as active. *)
Lemma filter_eff_pass (wanted : bool) (urls : list ShortenedUrl) (w : World) :
  exists kept w',
    filter_eff (fun u => is_expired <- isExpired clock u ;;
                         ret (if wanted then is_expired else negb is_expired)) urls w
    = (Returned kept, w') /\
    only_read_clock w w' /\
    sublist kept urls /\
    ((forall i j, (i <= j)%nat -> clock i <= clock j) ->
     (length
        (expired_by (clock (if wanted then now_calls w else now_calls w')) wanted urls)
      <= length kept)%nat) /\
    (forall t, (forall k, clock k = t) -> kept = expired_by t wanted urls).
Proof.
  revert w. induction urls as [|u urls IH]; intros w.
  - exists [], w. unfold only_read_clock. split_and!; auto; reflexivity.
  - cbn [filter_eff]. unfold bind at 1. unfold bind at 1.
    destruct (isExpired_expired_at clock u w) as (w1 & -> & Hls & Hrc & Hsc & Hnow).
    unfold ret at 1.
    destruct (IH w1) as (kept & w' & Hrun & Hread & Hsub & Hmono & Hconst).
    unfold bind at 1. rewrite Hrun. unfold ret.
    assert (Hread1 : only_read_clock w w1) by (unfold only_read_clock; split_and!; auto; lia).
    pose proof Hread as (_ & _ & _ & Hnow').
    eexists _, w'. split; [reflexivity|]. split_and!.
    + eapply only_read_clock_trans; eassumption.
    + destruct (if wanted then expired_at _ u else negb _);
        [now apply sublist_skip|now apply sublist_cons].
    + intros Hclock. specialize (Hmono Hclock). unfold expired_by in *.
      rewrite filter_cons. destruct wanted.
      * assert (Hle : clock (now_calls w) <= clock (now_calls w1)) by (apply Hclock; lia).
        pose proof (expired_by_later _ _ urls Hle) as [Hlater _].
        unfold expired_by in Hlater.
        destruct (expired_at (clock (now_calls w)) u); case_decide; try congruence;
          simpl; lia.
      * case_decide as Hu; [|destruct (negb _); simpl; lia].
        destruct (expired_at (clock (now_calls w)) u) eqn:Hw; [|simpl; lia].
        apply (expired_at_later _ (clock (now_calls w'))) in Hw; [congruence|].
        apply Hclock. lia.
    + intros t Ht. rewrite (Hconst t Ht). unfold expired_by. rewrite filter_cons, Ht.
      destruct wanted, (expired_at t u); case_decide; try congruence; reflexivity.
Qed.

(** X24. The counters of the statistics page.  Computing them reads the
    clock and changes nothing; the active and the expired records are
    counted in two passes, each record being judged at the reading of the
    clock taken when its turn comes.  Neither counter exceeds the total; with
    a clock that does not run backwards every record is counted at least
    once (a record that expires between the passes is counted twice); with a
    clock that stands still the two counters add up to the total. *)
Theorem summary_counts (urls : list ShortenedUrl) (w : World) :
  exists s w',
    summary urls w = (Returned s, w') /\
    only_read_clock w w' /\
    totalUrls s = length urls /\
    (activeUrls s <= totalUrls s)%nat /\
    (expiredUrls s <= totalUrls s)%nat /\
    ((forall i j, (i <= j)%nat -> clock i <= clock j) ->
     (totalUrls s <= activeUrls s + expiredUrls s)%nat) /\
    (forall t, (forall k, clock k = t) ->
       activeUrls s = length (expired_by t false urls) /\
       expiredUrls s = length (expired_by t true urls) /\
       (activeUrls s + expiredUrls s)%nat = totalUrls s).
Proof.
  unfold summary.
  destruct (filter_eff_pass false urls w)
    as (active & w1 & Hactive & Hread1 & Hsub1 & Hmono1 & Hconst1).
  destruct (filter_eff_pass true urls w1)
    as (expired & w2 & Hexpired & Hread2 & Hsub2 & Hmono2 & Hconst2).
  assert (Hexpired' : filter_eff (isExpired clock) urls w1 = (Returned expired, w2)).
  { rewrite <- Hexpired. apply filter_eff_ext. intros u v. unfold bind, ret.
    destruct (isExpired clock u v) as [[b|e] v']; reflexivity. }
  unfold bind at 1. cbv beta in Hactive. rewrite Hactive.
  unfold bind at 1. rewrite Hexpired'. unfold ret.
  do 2 eexists. split; [reflexivity|]. cbn [totalUrls activeUrls expiredUrls].
  apply sublist_length in Hsub1, Hsub2. split_and!; auto.
  - eapply only_read_clock_trans; eassumption.
  - intros Hclock. specialize (Hmono1 Hclock). specialize (Hmono2 Hclock).
    cbv iota in Hmono1, Hmono2.
    pose proof (expired_by_split (clock (now_calls w1)) urls). lia.
  - intros t Ht. rewrite (Hconst1 t Ht), (Hconst2 t Ht).
    split_and!; auto. apply expired_by_split.
Qed.




Lemma size_list_to_set_le (l : list string) :
  (size (list_to_set l : gset string) <= length l)%nat.
Proof.
  induction l as [|x l IH].
  - reflexivity.
  - rewrite list_to_set_cons, size_union_alt, size_singleton.
    assert (size ((list_to_set l : gset string) ∖ {[x]})
            <= size (list_to_set l : gset string))%nat
      by (apply subseteq_size; intros y Hy; now apply elem_of_difference in Hy).
    simpl. lia.
Qed.

Lemma size_list_to_set_within (l labels : list string) :
  Forall (fun x => x ∈ labels) l ->
  (size (list_to_set l : gset string) <= length labels)%nat.
Proof.
  intros Hl.
  transitivity (size (list_to_set labels : gset string)); [|apply size_list_to_set_le].
  apply subseteq_size. intros x Hx. apply elem_of_list_to_set in Hx.
  apply elem_of_list_to_set. eapply Forall_forall in Hl; eauto.
Qed.

(** X26. The "unique" figures of a record: each is at most the number of
    clicks and at least one when there is a click; for clicks with labels of
    the simulator neither exceeds the six labels it has. *)
Theorem getUniqueStats_bounds (url : ShortenedUrl) :
  let stats := getUniqueStats url in
  (stats.1 <= length (ShortenedUrl.clicks url))%nat /\
  (stats.2 <= length (ShortenedUrl.clicks url))%nat /\
  (ShortenedUrl.clicks url <> [] -> (1 <= stats.1)%nat /\ (1 <= stats.2)%nat) /\
  (Forall (fun c => source c ∈ SOURCES) (ShortenedUrl.clicks url) -> (stats.1 <= 6)%nat) /\
  (Forall (fun c => geo c ∈ GEOS) (ShortenedUrl.clicks url) -> (stats.2 <= 6)%nat).
Proof.
  cbv zeta. unfold getUniqueStats. cbn [fst snd]. split_and!.
  - rewrite <- (length_fmap source). apply size_list_to_set_le.
  - rewrite <- (length_fmap geo). apply size_list_to_set_le.
  - intros Hne. destruct (ShortenedUrl.clicks url) as [|c clicks]; [contradiction|].
    rewrite !fmap_cons, !list_to_set_cons.
    split; (rewrite size_union_alt, size_singleton; lia).
  - intros Hall. apply (size_list_to_set_within _ SOURCES).
    apply Forall_fmap. exact Hall.
  - intros Hall. apply (size_list_to_set_within _ GEOS).
    apply Forall_fmap. exact Hall.
Qed.

(** X27. [toggleExpanded(id)] flips the membership of [id] and of no other
    id, and toggling twice gives the set back. *)
Theorem toggleExpanded_flips_one_id (id : string) (expandedUrls : gset string) :
  (id ∈ toggleExpanded id expandedUrls <-> id ∉ expandedUrls) /\
  (forall other, other <> id ->
     (other ∈ toggleExpanded id expandedUrls <-> other ∈ expandedUrls)) /\
  toggleExpanded id (toggleExpanded id expandedUrls) = expandedUrls.
Proof.
  assert (Hin : id ∈ expandedUrls ->
            toggleExpanded id expandedUrls = expandedUrls ∖ {[id]}).
  { intros H. unfold toggleExpanded. now rewrite (bool_decide_eq_true_2 _ H). }
  assert (Hout : id ∉ expandedUrls ->
            toggleExpanded id expandedUrls = expandedUrls ∪ {[id]}).
  { intros H. unfold toggleExpanded. now rewrite (bool_decide_eq_false_2 _ H). }
  assert (Hmem : forall x,
            x ∈ toggleExpanded id expandedUrls <->
            (x ∈ expandedUrls /\ x <> id) \/ (x = id /\ id ∉ expandedUrls)).
  { intros x. destruct (decide (id ∈ expandedUrls)) as [H|H].
    - rewrite (Hin H), elem_of_difference, elem_of_singleton. tauto.
    - rewrite (Hout H), elem_of_union, elem_of_singleton.
      destruct (decide (x = id)) as [->|Hx]; tauto. }
  split_and!.
  - rewrite Hmem. tauto.
  - intros other Hother. rewrite Hmem. tauto.
  - apply set_eq. intros x. unfold toggleExpanded at 1.
    destruct (decide (id ∈ toggleExpanded id expandedUrls)) as [H|H].
    + rewrite (bool_decide_eq_true_2 _ H), elem_of_difference, elem_of_singleton, Hmem.
      apply Hmem in H. destruct (decide (x = id)) as [->|Hx]; tauto.
    + rewrite (bool_decide_eq_false_2 _ H), elem_of_union, elem_of_singleton, Hmem.
      rewrite Hmem in H. destruct (decide (x = id)) as [->|Hx]; [|tauto].
      destruct (decide (id ∈ expandedUrls)); tauto.
Qed.

End Statistics.

(** ** The logger ([src/hooks/useLogger.ts])

    The logger keeps its entries in a private field and mirrors them in the
    storage entry [app_logs].  The payload of an entry is opaque here. *)

Inductive LogType : Type := INFO | WARN | ERROR.

Module LogEntry.
Record t (Data : Type) : Type := mk {
  timestamp : Z;
  type : LogType;
  event : string;
  data : option Data
}.
Arguments mk {Data} _ _ _ _.
Arguments timestamp {Data} _.
Arguments type {Data} _.
Arguments event {Data} _.
Arguments data {Data} _.
End LogEntry.

Section LoggerClass.

Variable Data : Type.
Abbreviation LogEntry := (LogEntry.t Data).

(** The value of the k-th call of [Date.now()] the logger makes, and whether
    the browser accepts its k-th write of [app_logs]. *)
Variable clock : nat -> Z.
Variable accepts : nat -> bool.

(** What the storage entry [app_logs] holds: some text, or the text
    [JSON.stringify] wrote for a list of entries.  The logger reads the entry
    in its constructor only, which is not part of this model: a payload does
    not come back from the text as it went in. *)
Inductive SavedLogs : Type :=
| CorruptLogs (text : string)
| EncodedLogs (entries : list LogEntry).

(** The instance ([logs]) and the part of the browser it works on. *)
Record Logger : Type := mkLogger {
  logs : list LogEntry;
  app_logs : option SavedLogs;
  clock_calls : nat;
  write_calls : nat
}.

Definition saveLogs (l : Logger) : Outcome unit * Logger :=
  if accepts (write_calls l) then
    (Returned tt,
     mkLogger (logs l) (Some (EncodedLogs (logs l))) (clock_calls l) (S (write_calls l)))
  else
    (Thrown QuotaExceededError,
     mkLogger (logs l) (app_logs l) (clock_calls l) (S (write_calls l))).

(** [list.slice(-n)] *)
Definition slice_last {A} (n : nat) (xs : list A) : list A :=
  drop (length xs - n) xs.

Definition log (type : LogType) (event : string) (data : option Data) (l : Logger)
  : Outcome unit * Logger :=
  let entry := LogEntry.mk (clock (clock_calls l)) type event data in
  let l := mkLogger (logs l ++ [entry]) (app_logs l) (S (clock_calls l)) (write_calls l) in
  match saveLogs l with
  | (Returned _, l) =>
      if (1000 <? length (logs l))%nat then
        saveLogs (mkLogger (slice_last 1000 (logs l)) (app_logs l) (clock_calls l)
                    (write_calls l))
      else (Returned tt, l)
  | (Thrown e, l) => (Thrown e, l)
  end.

Definition getLogs (l : Logger) : list LogEntry := logs l.

Definition clearLogs (l : Logger) : Outcome unit * Logger :=
  saveLogs (mkLogger [] (app_logs l) (clock_calls l) (write_calls l)).

(** A call of [info], [warn] or [error]. *)
Record Call : Type := mkCall {
  call_type : LogType;
  call_event : string;
  call_data : option Data
}.

(** Calls in a row, a caller going on after a call that threw (as the store
    does, which logs inside its [try] blocks). *)
Fixpoint logAll (calls : list Call) (l : Logger) : Logger :=
  match calls with
  | [] => l
  | c :: calls => logAll calls (log (call_type c) (call_event c) (call_data c) l).2
  end.

(** The entries the calls add, the first of them at reading [k] of the clock. *)
Fixpoint entries_from (k : nat) (calls : list Call) : list LogEntry :=
  match calls with
  | [] => []
  | c :: calls =>
      LogEntry.mk (clock k) (call_type c) (call_event c) (call_data c)
      :: entries_from (S k) calls
  end.

Lemma entries_from_length (k : nat) (calls : list Call) :
  length (entries_from k calls) = length calls.
Proof.
  revert k. induction calls as [|c calls IH]; intros k; simpl; [reflexivity|].
  now rewrite IH.
Qed.

Lemma slice_last_length {A} (n : nat) (xs : list A) :
  length (slice_last n xs) = Nat.min n (length xs).
Proof. unfold slice_last. rewrite length_drop. lia. Qed.

Lemma slice_last_all {A} (n : nat) (xs : list A) :
  (length xs <= n)%nat -> slice_last n xs = xs.
Proof.
  intros H. unfold slice_last. now replace (length xs - n)%nat with 0%nat by lia.
Qed.

Lemma slice_last_snoc {A} (n : nat) (xs : list A) (x : A) :
  slice_last n (slice_last n xs ++ [x]) = slice_last n (xs ++ [x]).
Proof.
  unfold slice_last. destruct (decide (n = 0)%nat) as [->|Hn].
  - now rewrite !Nat.sub_0_r, !drop_all.
  - rewrite !length_app, length_drop. cbn [length].
    destruct (decide (length xs <= n)%nat) as [Hle|Hgt].
    + replace (length xs - n)%nat with 0%nat by lia.
      now rewrite Nat.sub_0_r.
    + replace (length xs - (length xs - n) + 1 - n)%nat with 1%nat by lia.
      replace (length xs + 1 - n)%nat with (S (length xs - n)) by lia.
      rewrite (drop_app_le _ _ 1) by (rewrite length_drop; lia).
      rewrite (drop_app_le xs) by lia.
      rewrite drop_drop. do 2 f_equal. lia.
Qed.

Lemma slice_last_app {A} (n : nat) (xs more : list A) :
  slice_last n (slice_last n xs ++ more) = slice_last n (xs ++ more).
Proof.
  revert xs. induction more as [|x more IH]; intros xs.
  - rewrite !app_nil_r. unfold slice_last at 1. rewrite slice_last_length.
    replace (Nat.min n (length xs) - n)%nat with 0%nat by lia. reflexivity.
  - rewrite !(cons_middle x), !app_assoc, <- IH, slice_last_snoc, IH. reflexivity.
Qed.

(** One call of [log] when the browser accepts the writes. *)
Lemma log_accepted (type : LogType) (event : string) (data : option Data) (l : Logger) :
  (forall k, accepts k = true) ->
  exists writes,
    log type event data l
    = (Returned tt,
       let kept := slice_last 1000
                     (logs l ++ [LogEntry.mk (clock (clock_calls l)) type event data]) in
       mkLogger kept (Some (EncodedLogs kept)) (S (clock_calls l)) writes) /\
    (write_calls l + 1 <= writes <= write_calls l + 2)%nat.
Proof.
  intros Hacc. unfold log, saveLogs. cbn [write_calls logs app_logs clock_calls].
  rewrite !Hacc. cbn [write_calls logs app_logs clock_calls].
  destruct (Nat.ltb_spec 1000 (length (logs l ++ [LogEntry.mk (clock (clock_calls l))
                                                   type event data]))) as [Hover|Hfits].
  - eexists. split; [reflexivity|cbn [write_calls]; lia].
  - rewrite (slice_last_all 1000) by exact Hfits.
    eexists. split; [reflexivity|lia].
Qed.

(** X28. The log holds the last thousand entries.  When the browser accepts
    the writes, after any calls of the logger the entries in memory are the
    most recent 1000 of the former entries followed by the new ones, in
    order, each stamped with its own reading of the clock; they are at most
    1000, and the storage entry holds the text written for that list. *)
Theorem log_keeps_last_thousand (calls : list Call) (l : Logger) :
  (forall k, accepts k = true) ->
  calls <> [] ->
  let l' := logAll calls l in
  logs l' = slice_last 1000 (logs l ++ entries_from (clock_calls l) calls) /\
  (length (logs l') <= 1000)%nat /\
  app_logs l' = Some (EncodedLogs (getLogs l')) /\
  clock_calls l' = (clock_calls l + length calls)%nat.
Proof.
  intros Hacc. cbv zeta. revert l.
  induction calls as [|c calls IH]; intros l Hne; [contradiction|].
  cbn [logAll entries_from].
  destruct (log_accepted (call_type c) (call_event c) (call_data c) l Hacc)
    as (writes & -> & _).
  cbv zeta. cbn [snd].
  set (entry := LogEntry.mk (clock (clock_calls l)) (call_type c) (call_event c)
                  (call_data c)).
  destruct calls as [|c' calls].
  - cbn [logAll entries_from logs app_logs clock_calls length].
    split; [reflexivity|split; [|split; [reflexivity|lia]]].
    rewrite slice_last_length. lia.
  - destruct (IH (mkLogger (slice_last 1000 (logs l ++ [entry]))
                    (Some (EncodedLogs (slice_last 1000 (logs l ++ [entry]))))
                    (S (clock_calls l)) writes))
      as (Hlogs & Hlen & Hsaved & Hclock); [discriminate|].
    cbn [logs clock_calls] in Hlogs, Hclock.
    split; [|split; [exact Hlen|split; [exact Hsaved|]]].
    + rewrite Hlogs, slice_last_app, <- app_assoc. reflexivity.
    + rewrite Hclock. cbn [length]. lia.
Qed.

(** X29. The cap rests on the writes.  A call of [log] whose first write the
    browser refuses throws with the new entry already in memory, the entries
    not cut back to 1000 and the storage entry as it was; so while the
    browser refuses the writes, the entries in memory grow by one with every
    call, past any bound. *)
Theorem log_refused_write_skips_the_cap (calls : list Call) (l : Logger) :
  (forall k, accepts k = false) ->
  (forall type event data,
     log type event data l
     = (Thrown QuotaExceededError,
        mkLogger (logs l ++ [LogEntry.mk (clock (clock_calls l)) type event data])
          (app_logs l) (S (clock_calls l)) (S (write_calls l)))) /\
  logs (logAll calls l) = logs l ++ entries_from (clock_calls l) calls /\
  length (logs (logAll calls l)) = (length (logs l) + length calls)%nat /\
  app_logs (logAll calls l) = app_logs l.
Proof.
  intros Hacc.
  assert (Hlog : forall type event data l,
     log type event data l
     = (Thrown QuotaExceededError,
        mkLogger (logs l ++ [LogEntry.mk (clock (clock_calls l)) type event data])
          (app_logs l) (S (clock_calls l)) (S (write_calls l)))).
  { intros type event data l0. unfold log, saveLogs.
    cbn [write_calls logs app_logs clock_calls]. now rewrite Hacc. }
  split; [intros; apply Hlog|].
  assert (Hall : logs (logAll calls l) = logs l ++ entries_from (clock_calls l) calls /\
                 app_logs (logAll calls l) = app_logs l).
  { revert l. induction calls as [|c calls IH]; intros l.
    - simpl. now rewrite app_nil_r.
    - cbn [logAll entries_from]. rewrite Hlog. cbn [snd].
      destruct (IH (mkLogger (logs l ++ [LogEntry.mk (clock (clock_calls l)) (call_type c)
                                           (call_event c) (call_data c)])
                      (app_logs l) (S (clock_calls l)) (S (write_calls l))))
        as [Hlogs Hsaved].
      cbn [logs app_logs clock_calls] in Hlogs, Hsaved.
      split; [|exact Hsaved]. now rewrite Hlogs, <- app_assoc. }
  destruct Hall as [Hlogs Hsaved]. split_and!; [exact Hlogs| |exact Hsaved].
  rewrite Hlogs, length_app. f_equal.
  apply entries_from_length.
Qed.

End LoggerClass.

(** * The store and the resolver with their logger

    The functions of [src/utils/dataStore.ts] and the resolver of
    [src/components/RedirectPage.tsx] once more, this time with every call
    of the logger in its place and with every value [JSON.parse] can make of
    the entry.

    - A call of [logger.info], [logger.warn] or [logger.error] returns, or
      throws the [QuotaExceededError] of a write of [app_logs] that the
      browser refuses (see the logger above); an oracle tells which, call by
      call.  The readings of the clock the logger makes for its entries stay
      out of the count of [Date.now()].
    - The entry at [shortened_urls] is absent, or a text that [JSON.parse]
      rejects, or the text of an array of records, or the text [null], or a
      text that parses to a boolean, a number, a string or an object.  (An
      array whose elements are not records is outside the type the store
      declares and has no counterpart.)
    - The resolver sets its status as it goes, so an exception leaves the
      status it had reached. *)

Module Logged.

(** What the entry holds, told apart by what [JSON.parse] makes of it. *)
Inductive Stored : Type :=
| Unparsable (text : string)          (* rejected with a [SyntaxError] *)
| Records (urls : list ShortenedUrl)  (* the text of an array of records *)
| Null                                (* the text [null] *)
| NotArray (text : string).           (* a boolean, a number, a string or an object *)

(** What the variable [urls] of the store's functions can hold. *)
Inductive Value : Type :=
| List (urls : list ShortenedUrl)
| NullValue
| Foreign (text : string).

Record World : Type := mkWorld {
  entry : option Stored;        (* [None]: no entry at the key *)
  now_calls : nat;              (* calls of [Date.now()] so far *)
  random_calls : nat;           (* calls of [Math.random()] so far *)
  setItem_calls : nat;          (* writes of [shortened_urls] so far *)
  log_calls : nat               (* calls of the logger so far *)
}.

Inductive Error : Type :=
| SyntaxError
| TypeError
| QuotaExceededError.

Inductive Outcome (A : Type) : Type :=
| Returned (a : A)
| Thrown (e : Error).
Arguments Returned {A} a.
Arguments Thrown {A} e.

(** A computation on a state [S]: it returns or throws, and the state it
    leaves is kept in both cases. *)
Definition Eff (S A : Type) : Type := S -> Outcome A * S.

Definition ret {S A} (a : A) : Eff S A := fun s => (Returned a, s).

Definition throw {S A} (e : Error) : Eff S A := fun s => (Thrown e, s).

Definition bind {S A B} (m : Eff S A) (k : A -> Eff S B) : Eff S B :=
  fun s =>
    match m s with
    | (Returned a, s') => k a s'
    | (Thrown e, s') => (Thrown e, s')
    end.

(** [try { m } catch (error) { h error }] *)
Definition try_catch {S A} (m : Eff S A) (h : Error -> Eff S A) : Eff S A :=
  fun s =>
    match m s with
    | (Returned a, s') => (Returned a, s')
    | (Thrown e, s') => h e s'
    end.

Definition lift {S A} (f : S -> A * S) : Eff S A :=
  fun s => let '(a, s') := f s in (Returned a, s').

Declare Scope logged_scope.
Delimit Scope logged_scope with logged.
Notation "x <- m ;; k" := (bind m (fun x => k))
  (at level 20, m at level 99, k at level 200, only parsing) : logged_scope.

Section Program.

Variable clock : nat -> Z.
Variable random : nat -> nat.
(** Whether the browser accepts the k-th write of [shortened_urls], and
    whether the k-th call of the logger returns. *)
Variable accepts : nat -> bool.
Variable logging : nat -> bool.

Local Open Scope logged_scope.

(** [Date.now()] *)
Definition Date_now (w : World) : Z * World :=
  (clock (now_calls w),
   mkWorld (entry w) (S (now_calls w)) (random_calls w) (setItem_calls w) (log_calls w)).

(** [Math.floor(Math.random() * n)] *)
Definition Math_random_below (n : nat) (w : World) : nat * World :=
  ((random (random_calls w) mod n)%nat,
   mkWorld (entry w) (now_calls w) (S (random_calls w)) (setItem_calls w) (log_calls w)).

Definition generateClickEvent (w : World) : ClickEvent * World :=
  let '(now, w) := Date_now w in
  let '(i, w) := Math_random_below (length SOURCES) w in
  let '(j, w) := Math_random_below (length GEOS) w in
  (mkClickEvent now (default EmptyString (SOURCES !! i)) (default EmptyString (GEOS !! j)), w).

(** [logger.info(...)], [logger.warn(...)], [logger.error(...)] *)
Definition logger : Eff World unit :=
  fun w =>
    let k := log_calls w in
    let w' := mkWorld (entry w) (now_calls w) (random_calls w) (setItem_calls w) (S k) in
    if logging k then (Returned tt, w') else (Thrown QuotaExceededError, w').

(** [localStorage.getItem(STORAGE_KEY)] *)
Definition getItem : Eff World (option Stored) :=
  fun w => (Returned (entry w), w).

(** [localStorage.setItem(STORAGE_KEY, JSON.stringify(urls))] *)
Definition setItem (urls : list ShortenedUrl) : Eff World unit :=
  fun w =>
    let k := setItem_calls w in
    if accepts k then
      (Returned tt,
       mkWorld (Some (Records urls)) (now_calls w) (random_calls w) (S k) (log_calls w))
    else
      (Thrown QuotaExceededError,
       mkWorld (entry w) (now_calls w) (random_calls w) (S k) (log_calls w)).

(** [JSON.parse(data)] *)
Definition JSON_parse (data : Stored) : Eff World Value :=
  match data with
  | Unparsable _ => throw SyntaxError
  | Records urls => ret (List urls)
  | Null => ret NullValue
  | NotArray text => ret (Foreign text)
  end.

(** Truthiness of the text [getItem] returned: only the empty text is falsy. *)
Definition Stored_truthy (data : Stored) : bool :=
  match data with
  | Unparsable text => Js.truthy text
  | _ => true
  end.

(** [urls.length], read for the payload of a log entry: reading a property
    of [null] throws. *)
Definition length_of (urls : Value) : Eff World unit :=
  match urls with
  | NullValue => throw TypeError
  | _ => ret tt
  end.

(** [urls.push], [urls.find], [urls.findIndex], [urls.filter], [urls.some]:
    the array the method works on; a value that is not an array has no such
    method, and calling it throws. *)
Definition array_of (urls : Value) : Eff World (list ShortenedUrl) :=
  match urls with
  | List urls => ret urls
  | _ => throw TypeError
  end.

Definition getAllUrls : Eff World Value :=
  try_catch
    (data <- getItem ;;
     urls <- match data with
             | Some text => if Stored_truthy text then JSON_parse text else ret (List [])
             | None => ret (List [])
             end ;;
     _ <- length_of urls ;;
     _ <- logger ;;
     ret urls)
    (fun _ => _ <- logger ;; ret (List [])).

Definition addUrl (url : ShortenedUrl) : Eff World unit :=
  try_catch
    (urls <- getAllUrls ;;
     urls <- array_of urls ;;
     _ <- setItem (urls ++ [url]) ;;
     logger)
    (fun error => _ <- logger ;; throw error).

Definition getUrlByShortCode (shortCode : string) : Eff World (option ShortenedUrl) :=
  try_catch
    (urls <- getAllUrls ;;
     urls <- array_of urls ;;
     match snd <$> list_find (fun u => ShortenedUrl.shortCode u = shortCode) urls with
     | Some url => _ <- logger ;; ret (Some url)
     | None => _ <- logger ;; ret None
     end)
    (fun _ => _ <- logger ;; ret None).

Definition updateUrl (url : ShortenedUrl) : Eff World unit :=
  try_catch
    (urls <- getAllUrls ;;
     urls <- array_of urls ;;
     match fst <$> list_find (fun u => ShortenedUrl.id u = ShortenedUrl.id url) urls with
     | Some index => _ <- setItem (<[index := url]> urls) ;; logger
     | None => logger
     end)
    (fun error => _ <- logger ;; throw error).

Definition deleteUrl (id : string) : Eff World unit :=
  try_catch
    (urls <- getAllUrls ;;
     urls <- array_of urls ;;
     _ <- setItem (filter (fun u => ShortenedUrl.id u <> id) urls) ;;
     logger)
    (fun error => _ <- logger ;; throw error).

Definition isShortCodeUnique (shortCode : string) : Eff World bool :=
  urls <- getAllUrls ;;
  urls <- array_of urls ;;
  let exists_ := bool_decide (Exists (fun u => ShortenedUrl.shortCode u = shortCode) urls) in
  _ <- logger ;;
  ret (negb exists_).

Definition addClick (shortCode : string) (clickEvent : ClickEvent) : Eff World unit :=
  try_catch
    (url <- getUrlByShortCode shortCode ;;
     match url with
     | Some url => _ <- updateUrl (push_click url clickEvent) ;; logger
     | None => ret tt
     end)
    (fun error => _ <- logger ;; throw error).

(** ** The resolver

    The state of [handleRedirect]: the component's status with the address
    of the navigation its timer will make, and the world. *)
Definition Resolution : Type := RedirectPage * World.

(** A computation of the store or of the logger, run by the resolver. *)
Definition on_world {A} (m : Eff World A) : Eff Resolution A :=
  fun s =>
    let '(r, w') := m s.2 in (r, (s.1, w')).

Definition setStatus (status : Status) : Eff Resolution unit :=
  fun s => (Returned tt, (mkRedirectPage status (location_href s.1), s.2)).

(** [setTimeout(() => { window.location.href = href; }, 1000)] *)
Definition setTimeout_navigate (href : string) : Eff Resolution unit :=
  fun s => (Returned tt, (mkRedirectPage (status s.1) (Some href), s.2)).

(** [url.expiryDate && Date.now() > url.expiryDate] *)
Definition isExpired (url : ShortenedUrl) : Eff World bool :=
  match ShortenedUrl.expiryDate url with
  | Some expiryDate =>
      if expiryDate =? 0 then ret false
      else (now <- lift Date_now ;; ret (now >? expiryDate))
  | None => ret false
  end.

Definition handleRedirect (shortcode : option string) : Eff Resolution unit :=
  let no_shortcode : Eff Resolution unit :=
    _ <- setStatus not_found ;; on_world logger in
  match shortcode with
  | None => no_shortcode
  | Some shortcode =>
      if negb (Js.truthy shortcode) then no_shortcode
      else
        _ <- on_world logger ;;
        try_catch
          (url <- on_world (getUrlByShortCode shortcode) ;;
           match url with
           | None => _ <- setStatus not_found ;; on_world logger
           | Some url =>
               is_expired <- on_world (isExpired url) ;;
               if is_expired then (_ <- setStatus expired ;; on_world logger)
               else
                 (clickEvent <- on_world (lift generateClickEvent) ;;
                  _ <- on_world (addClick shortcode clickEvent) ;;
                  _ <- setStatus redirecting ;;
                  _ <- on_world logger ;;
                  setTimeout_navigate (ShortenedUrl.originalUrl url))
           end)
          (fun _ => _ <- on_world logger ;; setStatus not_found)
  end.

(** The page before [handleRedirect] has run. *)
Definition initial : RedirectPage := mkRedirectPage loading None.

End Program.

(** ** Reading the world *)

(** The records the store holds, as the program can see them. *)
Definition stored (w : World) : list ShortenedUrl :=
  match entry w with
  | Some (Records urls) => urls
  | _ => []
  end.

(** The entry reads as a list of records: it is absent, or its text does not
    parse, or it holds an array of records or [null]. *)
Definition array_like (w : World) : Prop :=
  match entry w with
  | Some (NotArray _) => False
  | _ => True
  end.

(** The world after [n] more calls of the logger, after a write of [urls]
    that the browser accepted, after one it refused, and after one more call
    of [Date.now()]. *)
Definition logged (n : nat) (w : World) : World :=
  mkWorld (entry w) (now_calls w) (random_calls w) (setItem_calls w) (n + log_calls w).

Definition written (urls : list ShortenedUrl) (w : World) : World :=
  mkWorld (Some (Records urls)) (now_calls w) (random_calls w) (S (setItem_calls w))
    (log_calls w).

Definition refused (w : World) : World :=
  mkWorld (entry w) (now_calls w) (random_calls w) (S (setItem_calls w)) (log_calls w).

Definition ticked (w : World) : World :=
  mkWorld (entry w) (S (now_calls w)) (random_calls w) (setItem_calls w) (log_calls w).

End Logged.

(** ** The functions while the calls of the logger complete *)

Section LoggingCompletes.

Import Logged.

Variable clock : nat -> Z.
Variable random : nat -> nat.
Variable accepts : nat -> bool.
Variable logging : nat -> bool.

Hypothesis logging_completes : forall k, logging k = true.

Lemma logger_completes (w : World) : logger logging w = (Returned tt, logged 1 w).
Proof. unfold logger. now rewrite logging_completes. Qed.

Lemma getAllUrls_completes (w : World) :
  getAllUrls logging w =
  (Returned match entry w with
            | Some (NotArray text) => Foreign text
            | _ => List (stored w)
            end,
   logged 1 w).
Proof.
  unfold getAllUrls, stored, try_catch, bind, getItem, ret. cbn [fst snd].
  destruct (entry w) as [[text|urls| |text]|] eqn:Hentry; cbn;
    try destruct (Js.truthy text); cbn; rewrite ?logger_completes; try reflexivity.
Qed.

Lemma setItem_logged (urls : list ShortenedUrl) (w : World) :
  setItem accepts urls w =
  if accepts (setItem_calls w) then (Returned tt, written urls w)
  else (Thrown QuotaExceededError, refused w).
Proof. reflexivity. Qed.

Ltac run_store :=
  unfold try_catch, bind, ret, throw;
  rewrite ?getAllUrls_completes;
  cbn [fst snd].

Lemma getUrlByShortCode_completes (code : string) (w : World) :
  getUrlByShortCode logging code w
  = (Returned (findByCode (stored w) code), logged 2 w).
Proof.
  unfold getUrlByShortCode. run_store. unfold findByCode, stored.
  destruct (entry w) as [[text|urls| |text]|]; cbn [array_of]; unfold ret, throw;
    try (rewrite logger_completes; reflexivity);
    destruct (snd <$> list_find _ _); unfold bind; rewrite logger_completes; reflexivity.
Qed.

Lemma isShortCodeUnique_completes (code : string) (w : World) :
  isShortCodeUnique logging code w
  = match entry w with
    | Some (NotArray _) => (Thrown TypeError, logged 1 w)
    | _ => (Returned (negb (includes (codes (stored w)) code)), logged 2 w)
    end.
Proof.
  assert (Hsame : forall urls,
            bool_decide (Exists (fun u => ShortenedUrl.shortCode u = code) urls)
            = includes (codes urls) code).
  { intros urls. unfold includes, codes. apply bool_decide_ext.
    rewrite Exists_exists, list_elem_of_fmap. split.
    - intros (u & Hu & <-). eauto.
    - intros (u & -> & Hu). eauto. }
  unfold isShortCodeUnique. run_store. unfold stored.
  destruct (entry w) as [[text|urls| |text]|]; cbn [array_of]; unfold ret, throw;
    try reflexivity; rewrite logger_completes, Hsame; reflexivity.
Qed.

Lemma addUrl_completes (url : ShortenedUrl) (w : World) :
  addUrl accepts logging url w
  = match entry w with
    | Some (NotArray _) => (Thrown TypeError, logged 2 w)
    | _ =>
        if accepts (setItem_calls w)
        then (Returned tt, logged 2 (written (stored w ++ [url]) w))
        else (Thrown QuotaExceededError, logged 2 (refused w))
    end.
Proof.
  unfold addUrl. run_store. unfold stored.
  destruct (entry w) as [[text|urls| |text]|]; cbn [array_of]; unfold ret, throw;
    try (unfold bind; rewrite logger_completes; reflexivity);
    rewrite setItem_logged; cbn [setItem_calls logged];
    destruct (accepts (setItem_calls w)); unfold bind; rewrite logger_completes; reflexivity.
Qed.

Lemma updateUrl_completes (url : ShortenedUrl) (w : World) :
  updateUrl accepts logging url w
  = match entry w with
    | Some (NotArray _) => (Thrown TypeError, logged 2 w)
    | _ =>
        match indexOfId (stored w) (ShortenedUrl.id url) with
        | Some index =>
            if accepts (setItem_calls w)
            then (Returned tt, logged 2 (written (<[index := url]> (stored w)) w))
            else (Thrown QuotaExceededError, logged 2 (refused w))
        | None => (Returned tt, logged 2 w)
        end
    end.
Proof.
  unfold updateUrl. run_store. unfold indexOfId, stored.
  destruct (entry w) as [[text|urls| |text]|]; cbn [array_of]; unfold ret, throw;
    try (unfold bind; rewrite logger_completes; reflexivity);
    (destruct (fst <$> list_find _ _);
     [rewrite setItem_logged; cbn [setItem_calls logged];
      destruct (accepts (setItem_calls w)); unfold bind
     |]; rewrite logger_completes; reflexivity).
Qed.

Lemma deleteUrl_completes (id : string) (w : World) :
  deleteUrl accepts logging id w
  = match entry w with
    | Some (NotArray _) => (Thrown TypeError, logged 2 w)
    | _ =>
        if accepts (setItem_calls w)
        then (Returned tt,
              logged 2 (written (filter (fun u => ShortenedUrl.id u <> id) (stored w)) w))
        else (Thrown QuotaExceededError, logged 2 (refused w))
    end.
Proof.
  unfold deleteUrl. run_store. unfold stored.
  destruct (entry w) as [[text|urls| |text]|]; cbn [array_of]; unfold ret, throw;
    try (unfold bind; rewrite logger_completes; reflexivity);
    rewrite setItem_logged; cbn [setItem_calls logged];
    destruct (accepts (setItem_calls w)); unfold bind; rewrite logger_completes; reflexivity.
Qed.

Lemma addClick_completes (code : string) (clickEvent : ClickEvent) (w : World) :
  addClick accepts logging code clickEvent w
  = match findByCode (stored w) code with
    | Some url =>
        match indexOfId (stored w) (ShortenedUrl.id url) with
        | Some index =>
            if accepts (setItem_calls w)
            then (Returned tt,
                  logged 5 (written (<[index := push_click url clickEvent]> (stored w)) w))
            else (Thrown QuotaExceededError, logged 5 (refused w))
        | None => (Returned tt, logged 5 w)
        end
    | None => (Returned tt, logged 2 w)
    end.
Proof.
  unfold addClick. unfold try_catch, bind at 1. rewrite getUrlByShortCode_completes.
  destruct (findByCode (stored w) code) as [url|] eqn:Hfind; [|reflexivity].
  unfold bind. rewrite updateUrl_completes.
  assert (Hentry : exists urls, entry w = Some (Records urls)).
  { unfold stored in Hfind. destruct (entry w) as [[text|urls| |text]|]; try discriminate.
    eauto. }
  destruct Hentry as [urls Hentry].
  change (entry (logged 2 w)) with (entry w). rewrite Hentry.
  change (stored (logged 2 w)) with (stored w).
  change (ShortenedUrl.id (push_click url clickEvent)) with (ShortenedUrl.id url).
  destruct (indexOfId (stored w) (ShortenedUrl.id url)) as [index|].
  - change (setItem_calls (logged 2 w)) with (setItem_calls w).
    destruct (accepts (setItem_calls w)); rewrite logger_completes; reflexivity.
  - rewrite logger_completes. reflexivity.
Qed.

Lemma isExpired_logged (url : ShortenedUrl) (w : World) :
  isExpired clock url w
  = (Returned (expired_at (clock (now_calls w)) url),
     match ShortenedUrl.expiryDate url with
     | Some e => if e =? 0 then w else ticked w
     | None => w
     end).
Proof.
  unfold isExpired, expired_at.
  destruct (ShortenedUrl.expiryDate url) as [e|]; [|reflexivity].
  destruct (e =? 0); reflexivity.
Qed.

(** The page [handleRedirect] leaves while the calls of the logger complete. *)
Definition resolved (shortcode : option string) (w : World) : RedirectPage :=
  match shortcode with
  | None => mkRedirectPage not_found None
  | Some code =>
      if Js.truthy code then
        match findByCode (stored w) code with
        | None => mkRedirectPage not_found None
        | Some url =>
            if expired_at (clock (now_calls w)) url
            then mkRedirectPage expired None
            else if accepts (setItem_calls w)
                 then mkRedirectPage redirecting (Some (ShortenedUrl.originalUrl url))
                 else mkRedirectPage not_found None
        end
      else mkRedirectPage not_found None
  end.

Lemma handleRedirect_completes (shortcode : option string) (w : World) :
  exists w',
    handleRedirect clock random accepts logging shortcode (initial, w)
    = (Returned tt, (resolved shortcode w, w')).
Proof.
  unfold handleRedirect, resolved, initial.
  assert (Hnone : exists w',
    bind (setStatus not_found) (fun _ => on_world (logger logging))
      (mkRedirectPage loading None, w)
    = (Returned tt, (mkRedirectPage not_found None, w'))).
  { unfold bind, setStatus, on_world. cbn [fst snd location_href].
    rewrite logger_completes. eauto. }
  destruct shortcode as [code|]; [|exact Hnone].
  destruct (Js.truthy code); cbn [negb]; [|exact Hnone].
  unfold bind at 1. unfold on_world at 1. cbn [fst snd]. rewrite logger_completes.
  unfold try_catch. unfold bind at 1. unfold on_world at 1. cbn [fst snd].
  rewrite getUrlByShortCode_completes.
  change (stored (logged 1 w)) with (stored w).
  destruct (findByCode (stored w) code) as [url|] eqn:Hfind.
  - unfold bind at 1. unfold on_world at 1. cbn [fst snd]. rewrite isExpired_logged.
    change (now_calls (logged 2 (logged 1 w))) with (now_calls w).
    destruct (expired_at (clock (now_calls w)) url).
    + unfold bind, setStatus, on_world. cbn [fst snd location_href].
      rewrite logger_completes. eauto.
    + unfold bind at 1. unfold on_world at 1, lift. cbn [fst snd].
      set (w1 := match ShortenedUrl.expiryDate url with
                 | Some e => if e =? 0 then logged 2 (logged 1 w) else ticked (logged 2 (logged 1 w))
                 | None => logged 2 (logged 1 w)
                 end).
      assert (Hw1 : stored w1 = stored w /\ setItem_calls w1 = setItem_calls w).
      { unfold w1. destruct (ShortenedUrl.expiryDate url) as [e|]; [|auto].
        destruct (e =? 0); auto. }
      destruct Hw1 as [Hstored1 Hcalls1].
      destruct (generateClickEvent clock random w1) as [clickEvent w2] eqn:Hgen.
      assert (Hw2 : stored w2 = stored w /\ setItem_calls w2 = setItem_calls w).
      { unfold generateClickEvent, Date_now, Math_random_below in Hgen.
        injection Hgen as _ <-. auto. }
      destruct Hw2 as [Hstored2 Hcalls2].
      unfold bind at 1. unfold on_world at 1. cbn [fst snd].
      rewrite addClick_completes, Hstored2, Hfind, Hcalls2.
      destruct (indexOfId (stored w) (ShortenedUrl.id url)) as [index|] eqn:Hindex.
      * destruct (accepts (setItem_calls w)).
        -- unfold bind, setStatus, on_world, setTimeout_navigate.
           cbn [fst snd location_href status]. rewrite logger_completes. eauto.
        -- unfold bind, setStatus, on_world. cbn [fst snd location_href].
           rewrite logger_completes. eauto.
      * exfalso. unfold indexOfId in Hindex.
        apply fmap_None, list_find_None in Hindex.
        apply findByCode_Some in Hfind as [i Hi].
        apply list_find_Some in Hi as (Hi & _ & _).
        eapply Forall_lookup_1 in Hindex; [|exact Hi]. now apply Hindex.
  - unfold bind, setStatus, on_world. cbn [fst snd location_href].
    rewrite logger_completes. eauto.
Qed.

End LoggingCompletes.

(** ** What the logger and a foreign entry change *)

Section LoggedProperties.

Import Logged.

Variable clock : nat -> Z.
Variable random : nat -> nat.
Variable accepts : nat -> bool.
Variable logging : nat -> bool.

(** C8. [getAllUrls] does not fail open in every state.  Its outcome, for
    every entry and every behaviour of the logger: a value it read (the empty
    list for an absent entry or an empty text, the array of an entry that
    holds one) is returned when its call of [logger.info] completes, and
    given up for the empty list when that call throws and the call of
    [logger.error] in the [catch] completes; an entry that does not parse,
    or that holds [null], gives the empty list when [logger.error]
    completes.  But when the calls of the logger throw, because the browser
    refuses the writes of [app_logs], [getAllUrls] throws to its caller; and
    an entry that parses to something else than an array or [null] is
    returned as it is, which is no list. *)
Theorem getAllUrls_outcomes (w : World) :
  let k := log_calls w in
  let read (urls : Value) :=
    if logging k then (Returned urls, logged 1 w)
    else if logging (S k) then (Returned (List []), logged 2 w)
         else (Thrown QuotaExceededError, logged 2 w) in
  let caught :=
    if logging k then (Returned (List []), logged 1 w)
    else (Thrown QuotaExceededError, logged 1 w) in
  getAllUrls logging w =
  match entry w with
  | None => read (List [])
  | Some (Unparsable text) => if Js.truthy text then caught else read (List [])
  | Some (Records urls) => read (List urls)
  | Some Null => caught
  | Some (NotArray text) => read (Foreign text)
  end.
Proof.
  cbv zeta. unfold getAllUrls, try_catch, bind, getItem, ret, logger.
  destruct (entry w) as [[text|urls| |text]|] eqn:Hentry; cbn;
    try destruct (Js.truthy text); cbn;
    destruct (logging (log_calls w)); cbn; try reflexivity;
    destruct (logging (S (log_calls w))); reflexivity.
Qed.

(** X6. [isShortCodeUnique] against [getUrlByShortCode], while the calls of
    the logger complete.  When the entry reads as a list they agree: a code
    is unique exactly when the lookup finds no record, that is when no
    stored record carries the code, and neither changes the entry.  On an
    entry that parses to something else than an array they part:
    [isShortCodeUnique], which has no [try], throws the [TypeError] of
    [urls.some], while [getUrlByShortCode] catches that of [urls.find] and
    answers that there is no record. *)
Theorem isShortCodeUnique_against_lookup (code : string) (w : World) :
  (forall k, logging k = true) ->
  match entry w with
  | Some (NotArray _) =>
      isShortCodeUnique logging code w = (Thrown TypeError, logged 1 w) /\
      getUrlByShortCode logging code w = (Returned None, logged 2 w)
  | _ =>
      exists (unique : bool) (found : option ShortenedUrl),
        isShortCodeUnique logging code w = (Returned unique, logged 2 w) /\
        getUrlByShortCode logging code w = (Returned found, logged 2 w) /\
        (unique = true <-> found = None) /\
        (unique = true <-> Forall (fun u => ShortenedUrl.shortCode u <> code) (stored w))
  end.
Proof.
  intros Hlogging.
  pose proof (isShortCodeUnique_completes logging Hlogging code w) as Hunique.
  pose proof (getUrlByShortCode_completes logging Hlogging code w) as Hfound.
  assert (Hall : negb (includes (codes (stored w)) code) = true
                 <-> Forall (fun u => ShortenedUrl.shortCode u <> code) (stored w)).
  { rewrite negb_true_iff, includes_false. unfold codes.
    rewrite list_elem_of_fmap, Forall_forall. split.
    - intros Hno u Hin Hu. apply Hno. eauto.
    - intros Hall (u & -> & Hin). now apply (Hall u Hin). }
  assert (Hnone : negb (includes (codes (stored w)) code) = true
                  <-> findByCode (stored w) code = None).
  { rewrite Hall. unfold findByCode. rewrite fmap_None. symmetry. apply list_find_None. }
  destruct (entry w) as [[text|urls| |text]|] eqn:Hentry;
    try (exists (negb (includes (codes (stored w)) code)), (findByCode (stored w) code);
         split; [exact Hunique|]; split; [exact Hfound|]; split; [exact Hnone|exact Hall]).
  split; [exact Hunique|].
  rewrite Hfound. unfold stored. now rewrite Hentry.
Qed.

(** What a run leaves of the entry and of the count of its writes. *)
Definition unwritten (w w' : World) : Prop :=
  entry w' = entry w /\ setItem_calls w' = setItem_calls w.

(** [getAllUrls] writes nothing, whatever the logger does, and what it
    returns is the stored list, the empty list, or the foreign value of the
    entry. *)
Lemma getAllUrls_reads (w : World) :
  unwritten w (getAllUrls logging w).2 /\
  match (getAllUrls logging w).1 with
  | Returned (List urls) => urls = [] \/ urls = stored w
  | Returned NullValue => False
  | Returned (Foreign _) => ~ array_like w
  | Thrown e => e = QuotaExceededError
  end.
Proof.
  unfold getAllUrls, try_catch, bind, getItem, ret, logger, unwritten, stored, array_like.
  destruct (entry w) as [[text|urls| |text]|] eqn:Hentry; cbn;
    try destruct (Js.truthy text); cbn;
    destruct (logging (log_calls w)); cbn; rewrite ?Hentry; auto;
    destruct (logging (S (log_calls w))); cbn; rewrite ?Hentry; auto.
Qed.

(** [getUrlByShortCode] writes nothing either, and finds nothing but a
    stored record that has the code. *)
Lemma getUrlByShortCode_reads (code : string) (w : World) :
  unwritten w (getUrlByShortCode logging code w).2 /\
  match (getUrlByShortCode logging code w).1 with
  | Returned (Some url) => findByCode (stored w) code = Some url
  | Returned None => True
  | Thrown e => e = QuotaExceededError
  end.
Proof.
  unfold getUrlByShortCode, try_catch, bind.
  destruct (getAllUrls_reads w) as [[Hentry Hcalls] Hvalue].
  destruct (getAllUrls logging w) as [[[urls| |text]|e] w1]; cbn [fst snd] in *.
  - unfold array_of, ret.
    assert (Hfind : forall url,
              snd <$> list_find (fun u => ShortenedUrl.shortCode u = code) urls = Some url ->
              findByCode (stored w) code = Some url).
    { intros url. destruct Hvalue as [->| ->]; [discriminate|]. auto. }
    destruct (snd <$> list_find _ urls) as [url|] eqn:Hfound;
      unfold logger; cbn; destruct (logging (log_calls w1)); cbn;
      try destruct (logging (S (log_calls w1))); cbn; unfold unwritten; auto.
  - destruct Hvalue.
  - unfold array_of, throw, ret, logger; cbn.
    destruct (logging (log_calls w1)); cbn; unfold unwritten; auto.
  - unfold ret, logger; cbn.
    destruct (logging (log_calls w1)); cbn; unfold unwritten; auto.
Qed.

(** [updateUrl] with an id that no stored record has writes nothing. *)
Lemma updateUrl_unknown_unwritten (url : ShortenedUrl) (w : World) :
  Forall (fun u => ShortenedUrl.id u <> ShortenedUrl.id url) (stored w) ->
  unwritten w (updateUrl accepts logging url w).2.
Proof.
  intros Hnone. unfold updateUrl, try_catch, bind.
  destruct (getAllUrls_reads w) as [[Hentry Hcalls] Hvalue].
  destruct (getAllUrls logging w) as [[[urls| |text]|e] w1]; cbn [fst snd] in *.
  - unfold array_of, ret.
    assert (Hindex : fst <$> list_find (fun u => ShortenedUrl.id u = ShortenedUrl.id url) urls
                     = None).
    { apply fmap_None, list_find_None. destruct Hvalue as [->| ->]; [constructor|exact Hnone]. }
    rewrite Hindex. unfold throw, logger; cbn.
    destruct (logging (log_calls w1)); cbn;
      try destruct (logging (S (log_calls w1))); cbn; unfold unwritten; auto.
  - destruct Hvalue.
  - unfold array_of, throw, logger; cbn.
    destruct (logging (log_calls w1)); cbn; unfold unwritten; auto.
  - unfold throw, logger; cbn.
    destruct (logging (log_calls w1)); cbn; unfold unwritten; auto.
Qed.

(** X3. [updateUrl] with an id no stored record has, and [addClick] on a
    code bound to no record, attempt no write of the entry, whatever the
    logger does: the entry and the count of its writes are as before.  While
    the calls of the logger complete and the entry reads as a list, they
    return. *)
Theorem unknown_targets_attempt_no_write (w : World) :
  (forall url,
     Forall (fun u => ShortenedUrl.id u <> ShortenedUrl.id url) (stored w) ->
     let run := updateUrl accepts logging url w in
     entry run.2 = entry w /\
     setItem_calls run.2 = setItem_calls w /\
     ((forall k, logging k = true) -> array_like w -> run = (Returned tt, logged 2 w))) /\
  (forall code clickEvent,
     Forall (fun u => ShortenedUrl.shortCode u <> code) (stored w) ->
     let run := addClick accepts logging code clickEvent w in
     entry run.2 = entry w /\
     setItem_calls run.2 = setItem_calls w /\
     ((forall k, logging k = true) -> array_like w -> run = (Returned tt, logged 2 w))).
Proof.
  split.
  - intros url Hnone run.
    destruct (updateUrl_unknown_unwritten url w Hnone) as [Hentry Hcalls].
    split; [exact Hentry|]. split; [exact Hcalls|].
    intros Hlogging Hlist. unfold run.
    rewrite (updateUrl_completes accepts logging Hlogging).
    unfold indexOfId. rewrite (proj2 (list_find_None _ _) Hnone).
    unfold array_like in Hlist. destruct (entry w) as [[text|urls| |text]|]; easy.
  - intros code clickEvent Hnone run.
    assert (Hfind : findByCode (stored w) code = None).
    { unfold findByCode. now rewrite (proj2 (list_find_None _ _) Hnone). }
    assert (Hsame : unwritten w run.2).
    { unfold run, addClick, try_catch, bind.
      destruct (getUrlByShortCode_reads code w) as [Hsame Hvalue].
      destruct (getUrlByShortCode logging code w) as [[[found|]|e] w1]; cbn [fst snd] in *.
      - congruence.
      - exact Hsame.
      - destruct Hsame as [Hentry Hcalls]. unfold throw, logger; cbn.
        destruct (logging (log_calls w1)); cbn; unfold unwritten; auto. }
    destruct Hsame as [Hentry Hcalls].
    split; [exact Hentry|]. split; [exact Hcalls|].
    intros Hlogging _. unfold run.
    rewrite (addClick_completes accepts logging Hlogging). now rewrite Hfind.
Qed.

(** X2. How [addUrl], [updateUrl], [deleteUrl] and [addClick] throw.  While
    the calls of the logger complete and the entry reads as a list, a write
    that the browser refuses is the only way: they throw nothing but the
    [QuotaExceededError] of their one call of [setItem], and the entry is
    then unchanged.  On an entry that parses to something else than an
    array, the first three throw the [TypeError] of the array method they
    call and leave the entry, and [addClick], whose lookup catches it,
    returns.  And the logger itself can make them throw after the entry has
    changed: when the write of [addUrl] is accepted and the call of
    [logger.info] that follows it throws, [addUrl] throws though the entry
    holds the new record. *)
Theorem store_writers_throw (w : World) :
  let failed (run : Outcome unit * World) : Prop :=
    match run with
    | (Thrown e, w') =>
        e = QuotaExceededError /\
        accepts (setItem_calls w) = false /\
        entry w' = entry w
    | (Returned _, _) => True
    end in
  let no_array (run : Outcome unit * World) : Prop :=
    run = (Thrown TypeError, logged 2 w) in
  ((forall k, logging k = true) ->
   match entry w with
   | Some (NotArray _) =>
       (forall url, no_array (addUrl accepts logging url w)) /\
       (forall url, no_array (updateUrl accepts logging url w)) /\
       (forall id, no_array (deleteUrl accepts logging id w)) /\
       (forall code clickEvent,
          addClick accepts logging code clickEvent w = (Returned tt, logged 2 w))
   | _ =>
       (forall url, failed (addUrl accepts logging url w)) /\
       (forall url, failed (updateUrl accepts logging url w)) /\
       (forall id, failed (deleteUrl accepts logging id w)) /\
       (forall code clickEvent, failed (addClick accepts logging code clickEvent w))
   end) /\
  (forall url,
     array_like w ->
     logging (log_calls w) = true ->
     accepts (setItem_calls w) = true ->
     logging (S (log_calls w)) = false ->
     let run := addUrl accepts logging url w in
     run.1 = Thrown QuotaExceededError /\
     entry run.2 = Some (Records (stored w ++ [url]))).
Proof.
  cbv zeta. split.
  - intros Hlogging.
    pose proof (addUrl_completes accepts logging Hlogging) as Hadd.
    pose proof (updateUrl_completes accepts logging Hlogging) as Hupdate.
    pose proof (deleteUrl_completes accepts logging Hlogging) as Hdelete.
    pose proof (addClick_completes accepts logging Hlogging) as Hclick.
    assert (Hlist : (exists text, entry w = Some (NotArray text)) \/
                    (forall A (x y : A),
                       match entry w with Some (NotArray _) => x | _ => y end = y)).
    { destruct (entry w) as [[text|urls| |text]|]; eauto. }
    destruct Hlist as [[text Hentry]|Hlist].
    + rewrite Hentry. split_and!.
      * intros url. now rewrite Hadd, Hentry.
      * intros url. now rewrite Hupdate, Hentry.
      * intros id. now rewrite Hdelete, Hentry.
      * intros code clickEvent. rewrite Hclick. unfold stored. now rewrite Hentry.
    + rewrite Hlist. split_and!.
      * intros url. rewrite Hadd, Hlist.
        destruct (accepts (setItem_calls w)); [exact I|]. auto.
      * intros url. rewrite Hupdate, Hlist.
        destruct (indexOfId _ _); [|exact I].
        destruct (accepts (setItem_calls w)); [exact I|]. auto.
      * intros id. rewrite Hdelete, Hlist.
        destruct (accepts (setItem_calls w)); [exact I|]. auto.
      * intros code clickEvent. rewrite Hclick.
        destruct (findByCode _ _); [|exact I].
        destruct (indexOfId _ _); [|exact I].
        destruct (accepts (setItem_calls w)); [exact I|]. auto.
  - intros url Hlist Hinfo Haccepts Hrefused.
    unfold addUrl, getAllUrls, try_catch, bind, getItem.
    unfold array_like, stored in *.
    destruct (entry w) as [[text|urls| |text]|] eqn:Hentry; try destruct Hlist;
      cbn [Stored_truthy]; try destruct (Js.truthy text);
      unfold JSON_parse, length_of, array_of, ret, setItem, logger, throw; cbn;
      rewrite Hinfo; cbn; rewrite Haccepts; cbn; rewrite Hrefused; cbn;
      destruct (logging (S (S (log_calls w)))); cbn; auto.
Qed.

(** X11. The run of [handleRedirect] from the page that loads.  While the
    calls of the logger complete it returns, the page it leaves is no more
    [loading], and that page is decided by the route's code, the stored
    records, one reading of the clock and the browser's answer to one write:
    [not_found] without a code, for the empty code and for a code bound to
    no record; [expired] for a record expired at the reading; otherwise
    [redirecting] to the record's address when the click could be written,
    and [not_found] when the write was refused.  But its first call of the
    logger stands before the [try]: when that call throws, for a code that
    is not empty, [handleRedirect] throws to its caller and the page stays
    as it was, [loading]. *)
Theorem handleRedirect_outcomes (w : World) :
  (forall shortcode,
     (forall k, logging k = true) ->
     status (resolved clock accepts shortcode w) <> loading /\
     exists w',
       handleRedirect clock random accepts logging shortcode (initial, w)
       = (Returned tt, (resolved clock accepts shortcode w, w'))) /\
  (forall code,
     Js.truthy code = true ->
     logging (log_calls w) = false ->
     handleRedirect clock random accepts logging (Some code) (initial, w)
     = (Thrown QuotaExceededError, (initial, logged 1 w))).
Proof.
  split.
  - intros shortcode Hlogging. split.
    + unfold resolved. repeat case_match; discriminate.
    + exact (handleRedirect_completes clock random accepts logging Hlogging shortcode w).
  - intros code Htruthy Hrefused.
    unfold handleRedirect. rewrite Htruthy. cbn [negb].
    unfold bind, on_world, logger. cbn [fst snd]. now rewrite Hrefused.
Qed.

End LoggedProperties.

(** ** The two accounts of the program agree

    While the calls of the logger complete and the entry reads as a list,
    the functions with their logger do what the functions of the first
    parts do: same result, same exception, same entry, same readings of the
    clock and of the random source, same writes. *)

Section Refinement.

Variable clock : nat -> Z.
Variable random : nat -> nat.
Variable accepts : nat -> bool.
Variable logging : nat -> bool.

(** The world of the first parts a world with its logger stands for.  The
    text [null] reads as the empty list, as a text that does not parse
    does. *)
Definition erase (w : Logged.World) : World :=
  mkWorld
    match Logged.entry w with
    | None => None
    | Some (Logged.Unparsable text) => Some (Corrupt text)
    | Some (Logged.Records urls) => Some (Encoded urls)
    | Some Logged.Null => Some (Corrupt "null")
    | Some (Logged.NotArray text) => Some (Corrupt text)
    end
    (Logged.now_calls w) (Logged.random_calls w) (Logged.setItem_calls w).

(** The same result, or the same exception. *)
Definition same_outcome {A} (logged : Logged.Outcome A) (run : Outcome A) : Prop :=
  match logged, run with
  | Logged.Returned a, Returned b => a = b
  | Logged.Thrown Logged.SyntaxError, Thrown SyntaxError => True
  | Logged.Thrown Logged.QuotaExceededError, Thrown QuotaExceededError => True
  | _, _ => False
  end.

(** A run with the logger and a run of the first parts end alike. *)
Definition agree {A} (logged : Logged.Outcome A * Logged.World) (run : Outcome A * World)
  : Prop :=
  same_outcome logged.1 run.1 /\ erase logged.2 = run.2.

Lemma stored_erase (w : Logged.World) :
  Logged.array_like w -> stored (erase w) = Logged.stored w.
Proof.
  unfold Logged.array_like, stored, Logged.stored, erase. cbn.
  destruct (Logged.entry w) as [[text|urls| |text]|]; easy.
Qed.

Lemma array_like_entry (w w' : Logged.World) :
  Logged.entry w' = Logged.entry w -> Logged.array_like w -> Logged.array_like w'.
Proof. unfold Logged.array_like. now intros ->. Qed.

Lemma isExpired_agrees (url : ShortenedUrl) (w : Logged.World) :
  exists is_expired w1,
    Logged.isExpired clock url w = (Logged.Returned is_expired, w1) /\
    isExpired clock url (erase w) = (Returned is_expired, erase w1) /\
    Logged.entry w1 = Logged.entry w.
Proof.
  rewrite isExpired_eq. unfold Logged.isExpired.
  destruct (ShortenedUrl.expiryDate url) as [e|]; [|now exists false, w].
  destruct (e =? 0); [now exists false, w|].
  eexists _, _. split; [reflexivity|]. split; reflexivity.
Qed.

Lemma generateClickEvent_agrees (w : Logged.World) :
  let logged := Logged.generateClickEvent clock random w in
  generateClickEvent clock random (erase w) = (logged.1, erase logged.2) /\
  Logged.entry logged.2 = Logged.entry w.
Proof. split; reflexivity. Qed.

Lemma addClick_agrees (code : string) (clickEvent : ClickEvent) (w : Logged.World) :
  (forall k, logging k = true) ->
  Logged.array_like w ->
  agree (Logged.addClick accepts logging code clickEvent w)
    (addClick accepts code clickEvent (erase w)).
Proof.
  intros logging_completes Hlist. unfold agree.
  rewrite (addClick_completes accepts logging logging_completes).
  rewrite addClick_eq, (stored_erase w Hlist).
  destruct (findByCode (Logged.stored w) code) as [url|]; [|split; reflexivity].
  rewrite updateUrl_eq, (stored_erase w Hlist).
  change (ShortenedUrl.id (push_click url clickEvent)) with (ShortenedUrl.id url).
  destruct (indexOfId (Logged.stored w) (ShortenedUrl.id url)) as [index|];
    [|split; reflexivity].
  rewrite setItem_eq. change (setItem_calls (erase w)) with (Logged.setItem_calls w).
  destruct (accepts (Logged.setItem_calls w)); split; reflexivity.
Qed.

Lemma handleRedirect_agrees (shortcode : option string) (w : Logged.World) :
  (forall k, logging k = true) ->
  Logged.array_like w ->
  exists page w',
    Logged.handleRedirect clock random accepts logging shortcode (Logged.initial, w)
    = (Logged.Returned tt, (page, w')) /\
    handleRedirect clock random accepts shortcode (erase w) = (Returned page, erase w').
Proof.
  intros logging_completes Hlist.
  pose proof (stored_erase w Hlist) as Hstored.
  unfold Logged.handleRedirect, Logged.initial.
  assert (Hnone : forall w1,
    erase w1 = erase w ->
    exists page w',
      Logged.bind (Logged.setStatus not_found)
        (fun _ => Logged.on_world (Logged.logger logging))
        (mkRedirectPage loading None, w1)
      = (Logged.Returned tt, (page, w')) /\
      (Returned (mkRedirectPage not_found None), erase w) = (Returned page, erase w')).
  { intros w1 Hw1.
    unfold Logged.bind, Logged.setStatus, Logged.on_world. cbn [fst snd location_href].
    rewrite (logger_completes logging logging_completes).
    eexists _, _. split; [reflexivity|]. now rewrite <- Hw1. }
  destruct shortcode as [code|]; [|exact (Hnone w eq_refl)].
  destruct (Js.truthy code) eqn:Htruthy; cbn [negb];
    [|rewrite handleRedirect_missing by auto; exact (Hnone w eq_refl)].
  unfold Logged.bind at 1. unfold Logged.on_world at 1. cbn [fst snd].
  rewrite (logger_completes logging logging_completes).
  unfold Logged.try_catch. unfold Logged.bind at 1. unfold Logged.on_world at 1.
  cbn [fst snd].
  rewrite (getUrlByShortCode_completes logging logging_completes).
  change (Logged.stored (Logged.logged 1 w)) with (Logged.stored w).
  destruct (findByCode (Logged.stored w) code) as [url|] eqn:Hfind.
  - rewrite (handleRedirect_found clock random accepts code url (erase w) Htruthy)
      by now rewrite Hstored.
    set (w0 := Logged.logged 2 (Logged.logged 1 w)).
    assert (Hlist0 : Logged.array_like w0) by exact Hlist.
    change (erase w) with (erase w0).
    destruct (isExpired_agrees url w0) as (is_expired & w1 & Hlogged & -> & Hentry1).
    unfold Logged.bind at 1. unfold Logged.on_world at 1. cbn [fst snd].
    rewrite Hlogged.
    destruct is_expired.
    + unfold Logged.bind, Logged.setStatus, Logged.on_world. cbn [fst snd location_href].
      rewrite (logger_completes logging logging_completes).
      eexists _, _. split; reflexivity.
    + rewrite recordClick_eq.
      destruct (generateClickEvent_agrees w1) as [-> Hentry2].
      unfold Logged.bind at 1. unfold Logged.on_world at 1, Logged.lift. cbn [fst snd].
      destruct (Logged.generateClickEvent clock random w1) as [clickEvent w2].
      cbn [fst snd] in *.
      assert (Hlist2 : Logged.array_like w2).
      { eapply array_like_entry; [|exact Hlist0]. now rewrite Hentry2. }
      destruct (addClick_agrees code clickEvent w2 logging_completes Hlist2) as [Hout Hworld].
      unfold Logged.bind at 1. unfold Logged.on_world at 1. cbn [fst snd].
      destruct (Logged.addClick accepts logging code clickEvent w2) as [[[]|e] w3];
        destruct (addClick accepts code clickEvent (erase w2)) as [[[]|e'] w3'];
        cbn [fst snd same_outcome] in *;
        try solve [destruct Hout | destruct e; destruct Hout]; subst w3'.
      * unfold Logged.bind, Logged.setStatus, Logged.on_world, Logged.setTimeout_navigate.
        cbn [fst snd location_href status].
        rewrite (logger_completes logging logging_completes). cbn [fst snd status].
        eexists _, _. split; reflexivity.
      * unfold Logged.bind, Logged.setStatus, Logged.on_world. cbn [fst snd location_href].
        rewrite (logger_completes logging logging_completes).
        eexists _, _. split; reflexivity.
  - rewrite handleRedirect_missing by (right; now rewrite Hstored).
    unfold Logged.bind, Logged.setStatus, Logged.on_world. cbn [fst snd location_href].
    rewrite (logger_completes logging logging_completes).
    eexists _, _. split; reflexivity.
Qed.

(** X30. The functions of the store and the resolver with their logger do
    what the functions without it do, while the calls of the logger complete
    and the entry reads as a list: [getAllUrls] returns the same list, the
    other functions of the store return the same value or throw the same
    exception and leave the same entry and the same counts of readings and
    writes, and [handleRedirect], started on the page that loads, returns
    and leaves the page the function without the logger returns. *)
Theorem logged_program_agrees (w : Logged.World) :
  (forall k, logging k = true) ->
  Logged.array_like w ->
  (exists urls,
     getAllUrls (erase w) = (Returned urls, erase w) /\
     Logged.getAllUrls logging w
     = (Logged.Returned (Logged.List urls), Logged.logged 1 w)) /\
  (forall url,
     agree (Logged.addUrl accepts logging url w) (addUrl accepts url (erase w))) /\
  (forall code,
     agree (Logged.getUrlByShortCode logging code w) (getUrlByShortCode code (erase w))) /\
  (forall url,
     agree (Logged.updateUrl accepts logging url w) (updateUrl accepts url (erase w))) /\
  (forall id,
     agree (Logged.deleteUrl accepts logging id w) (deleteUrl accepts id (erase w))) /\
  (forall code,
     agree (Logged.isShortCodeUnique logging code w) (isShortCodeUnique code (erase w))) /\
  (forall code clickEvent,
     agree (Logged.addClick accepts logging code clickEvent w)
       (addClick accepts code clickEvent (erase w))) /\
  (forall shortcode,
     let logged :=
       Logged.handleRedirect clock random accepts logging shortcode (Logged.initial, w) in
     let run := handleRedirect clock random accepts shortcode (erase w) in
     logged.1 = Logged.Returned tt /\
     run.1 = Returned logged.2.1 /\
     erase logged.2.2 = run.2).
Proof.
  intros logging_completes Hlist.
  pose proof (stored_erase w Hlist) as Hstored.
  assert (Hentry : forall A (x y : A),
            match Logged.entry w with Some (Logged.NotArray _) => x | _ => y end = y).
  { unfold Logged.array_like in Hlist.
    destruct (Logged.entry w) as [[text|urls| |text]|]; easy. }
  split_and!.
  - exists (Logged.stored w).
    rewrite getAllUrls_stored, Hstored.
    rewrite (getAllUrls_completes logging logging_completes).
    unfold Logged.array_like in Hlist.
    destruct (Logged.entry w) as [[text|urls| |text]|]; easy.
  - intros url. unfold agree.
    rewrite (addUrl_completes accepts logging logging_completes), Hentry.
    rewrite addUrl_eq, Hstored.
    change (setItem_calls (erase w)) with (Logged.setItem_calls w).
    destruct (accepts (Logged.setItem_calls w)); split; reflexivity.
  - intros code. unfold agree.
    rewrite (getUrlByShortCode_completes logging logging_completes).
    rewrite getUrlByShortCode_eq, Hstored. split; reflexivity.
  - intros url. unfold agree.
    rewrite (updateUrl_completes accepts logging logging_completes), Hentry.
    rewrite updateUrl_eq, Hstored.
    destruct (indexOfId (Logged.stored w) (ShortenedUrl.id url)) as [index|];
      [|split; reflexivity].
    rewrite setItem_eq. change (setItem_calls (erase w)) with (Logged.setItem_calls w).
    destruct (accepts (Logged.setItem_calls w)); split; reflexivity.
  - intros id. unfold agree.
    rewrite (deleteUrl_completes accepts logging logging_completes), Hentry.
    unfold deleteUrl. rewrite try_catch_rethrow. unfold bind.
    rewrite getAllUrls_stored, setItem_eq, Hstored.
    change (setItem_calls (erase w)) with (Logged.setItem_calls w).
    destruct (accepts (Logged.setItem_calls w)); split; reflexivity.
  - intros code. unfold agree.
    rewrite (isShortCodeUnique_completes logging logging_completes), Hentry.
    rewrite isShortCodeUnique_eq, Hstored. split; reflexivity.
  - intros code clickEvent. now apply addClick_agrees.
  - intros shortcode. cbv zeta.
    destruct (handleRedirect_agrees shortcode w logging_completes Hlist)
      as (page & w' & -> & ->).
    split; [reflexivity|]. split; reflexivity.
Qed.

End Refinement.

(** * Further scenarios

    The properties of the second part that rest on a precondition, each at a
    concrete input that meets it. *)

Ltac by_decision := apply (bool_decide_unpack _); vm_compute; exact I.

Definition refuses_all (k : nat) : bool := false.

(** A record bound to [abcd] that expires a day after the first reading of
    the clock, and a click. *)
Definition live_record : ShortenedUrl := one_record (Some (ticking_clock 0 + 86400000)) [].
Definition a_click : ClickEvent := mkClickEvent 1700000000500 "Email" "Asia".

(** A logger whose calls all complete, and one whose calls all throw; a
    store with one record, and an entry that holds an object, both with
    their logger. *)
Definition logs_all (k : nat) : bool := true.
Definition logs_none (k : nat) : bool := false.

Definition logged_world_with (url : ShortenedUrl) : Logged.World :=
  Logged.mkWorld (Some (Logged.Records [url])) 0 0 0 0.

Definition foreign_world : Logged.World :=
  Logged.mkWorld (Some (Logged.NotArray "{}")) 0 0 0 0.


(** C8, the failing inputs: a store with one record read while the logger's
    writes are refused, and an entry that holds an object. *)
Lemma getAllUrls_failing_inputs :
  Logged.getAllUrls logs_none (logged_world_with live_record)
  = (Logged.Thrown Logged.QuotaExceededError,
     Logged.mkWorld (Some (Logged.Records [live_record])) 0 0 0 2) /\
  Logged.getAllUrls logs_all foreign_world
  = (Logged.Returned (Logged.Foreign "{}"),
     Logged.mkWorld (Some (Logged.NotArray "{}")) 0 0 0 1).
Proof.
  split.
  - exact (getAllUrls_outcomes logs_none (logged_world_with live_record)).
  - exact (getAllUrls_outcomes logs_all foreign_world).
Defined.

(** X2, witness: [addUrl] on an empty store, with a logger that completes
    its first call only. *)
Lemma store_writers_throw_witness :
  let logging k := bool_decide (k = 0%nat) in
  let run := Logged.addUrl accepts_all logging live_record (Logged.mkWorld None 0 0 0 0) in
  run.1 = Logged.Thrown Logged.QuotaExceededError /\
  Logged.entry run.2 = Some (Logged.Records [live_record]).
Proof.
  apply (store_writers_throw accepts_all (fun k => bool_decide (k = 0%nat))
           (Logged.mkWorld None 0 0 0 0)); reflexivity || exact I.
Defined.

(** X3, witness: an update with an id, and a click on a code, that the one
    stored record does not have, while the logger's calls throw. *)
Lemma unknown_targets_witness :
  let w := logged_world_with live_record in
  let other := ShortenedUrl.mk "other" "https://example.org" "wxyz" 0 None [] in
  Logged.entry (Logged.updateUrl accepts_all logs_none other w).2 = Logged.entry w /\
  Logged.entry (Logged.addClick accepts_all logs_none "wxyz" a_click w).2 = Logged.entry w.
Proof.
  destruct (unknown_targets_attempt_no_write accepts_all logs_none
              (logged_world_with live_record)) as [Hupdate Hclick].
  split.
  - apply (Hupdate (ShortenedUrl.mk "other" "https://example.org" "wxyz" 0 None [])).
    by_decision.
  - apply (Hclick "wxyz" a_click). by_decision.
Defined.

(** X6, witness: the two lookups on an entry that holds an object. *)
Lemma isShortCodeUnique_against_lookup_witness :
  Logged.isShortCodeUnique logs_all "abcd" foreign_world
  = (Logged.Thrown Logged.TypeError, Logged.logged 1 foreign_world) /\
  Logged.getUrlByShortCode logs_all "abcd" foreign_world
  = (Logged.Returned None, Logged.logged 2 foreign_world).
Proof.
  apply (isShortCodeUnique_against_lookup logs_all "abcd" foreign_world).
  reflexivity.
Defined.

(** X11, witness: the code of the stored record, with a logger whose calls
    throw: the page stays [loading]. *)
Lemma handleRedirect_outcomes_witness :
  Logged.handleRedirect ticking_clock counting_random accepts_all logs_none (Some "abcd")
    (Logged.initial, logged_world_with live_record)
  = (Logged.Thrown Logged.QuotaExceededError,
     (mkRedirectPage loading None,
      Logged.mkWorld (Some (Logged.Records [live_record])) 0 0 0 1)).
Proof.
  apply (handleRedirect_outcomes ticking_clock counting_random accepts_all logs_none
           (logged_world_with live_record)); reflexivity.
Defined.

(** X30, witness: the store with one record. *)
Lemma logged_program_agrees_witness :
  let w := logged_world_with live_record in
  agree (Logged.addClick accepts_all logs_all "abcd" a_click w)
    (addClick accepts_all "abcd" a_click (erase w)) /\
  (Logged.handleRedirect ticking_clock counting_random accepts_all logs_all (Some "abcd")
     (Logged.initial, w)).1 = Logged.Returned tt.
Proof.
  destruct (logged_program_agrees ticking_clock counting_random accepts_all logs_all
              (logged_world_with live_record) (fun _ => eq_refl) I)
    as (_ & _ & _ & _ & _ & _ & Hclick & Hredirect).
  split; [apply Hclick|apply (Hredirect (Some "abcd"))].
Defined.




(** X13, witness: a code generated against two stored codes of six characters. *)
Lemma generated_codes_witness :
  Validation.validateShortcode
    (generateUniqueShortcode counting_random ["ABCDEF"; "dup123"] 6 empty_world).1
  = mkValidationResult true EmptyString.
Proof.
  apply (generated_codes_are_valid_shortcodes counting_random). vm_compute. lia.
Defined.

(** X14, witness: an address with a protocol and a path. *)
Lemma validateUrl_accepted_witness :
  let url := "https://example.com/a_b" in
  Validation.validateUrl url = mkValidationResult true EmptyString /\
  Forall url_char (list_ascii_of_string url) /\
  "."%char ∈ list_ascii_of_string url /\
  ~ Forall (fun a => Js.is_space a = true) (list_ascii_of_string url).
Proof.
  apply (validateUrl_accepted_shape "https://example.com/a_b"). vm_compute. reflexivity.
Defined.

(** X15, witness: a host with a hyphen and dots, a two-part top level, a path with a space. *)
Lemma validateUrl_accepts_witness :
  Validation.validateUrl ("https://" +:+ ("my-site.example" +:+ ("." +:+ ("co.uk" +:+ "/a b/c_d.html"))))
  = mkValidationResult true EmptyString.
Proof.
  apply (validateUrl_accepts_plain_addresses "https://" "my-site.example" "co.uk"
           "/a b/c_d.html").
  - by_decision.
  - discriminate.
  - by_decision.
  - vm_compute. lia.
  - by_decision.
  - by_decision.
Defined.

(** X17, witness: the first candidate is taken, the second is free and is returned after twelve samples. *)
Lemma generateUniqueShortcode_scan_witness :
  generateUniqueShortcode counting_random ["ABCDEF"] 6 empty_world
  = (candidate counting_random 6 1 empty_world, drawn counting_random 6 2 empty_world) /\
  random_calls (drawn counting_random 6 2 empty_world) = (random_calls empty_world + (1 + 1) * 6)%nat.
Proof.
  apply (generateUniqueShortcode_scans_hundred_candidates counting_random ["ABCDEF"] 6
           empty_world).
  - unfold maxAttempts. lia.
  - intros m Hm. assert (m = 0)%nat as -> by lia. by_decision.
  - by_decision.
Defined.


(** A preferred shortcode made of a space passes [validateShortcode] as an
    empty field would, and is then stored as the code of the record. *)
Example blank_preferred_shortcode_is_stored :
  codes (stored (handleSubmit ticking_clock counting_random accepts_all
                   (batch [form "example.com" 30 " "]) empty_world).2)
  = [" "].
Proof. vm_compute. reflexivity. Qed.


(** X21, witness: the clock that advances by a millisecond at each reading. *)
Lemma handleSubmit_expiry_window_witness :
  let st := batch [form "example.com" 30 ""] in
  exists committed,
    stored (handleSubmit ticking_clock counting_random accepts_all st empty_world).2
    = stored empty_world ++ committed /\
    Forall (fun url =>
              exists k e,
                ShortenedUrl.creationDate url = ticking_clock k /\
                ShortenedUrl.expiryDate url = Some e /\
                e <> 0 /\
                ShortenedUrl.creationDate url + 60000 <= e /\
                ticking_clock (S k) + 60000 <= e <= ticking_clock (S k) + 525600 * 60000)
           committed.
Proof.
  apply (handleSubmit_expiry_window ticking_clock counting_random accepts_all
           (batch [form "example.com" 30 ""]) empty_world).
  - intros k. unfold ticking_clock. lia.
  - intros k. unfold ticking_clock. lia.
Defined.

(** X22, witness: forms added and removed around a submission, from the one blank form. *)
Lemma form_list_witness :
  (1 <= length (forms (foldl (act ticking_clock counting_random accepts_all)
                         (batch [blank_form], empty_world)
                         [AddForm; AddForm; RemoveForm 0; Submit; RemoveForm 3]).1) <= 5)%nat.
Proof.
  apply (form_list_stays_between_one_and_five ticking_clock counting_random accepts_all).
  simpl. lia.
Defined.

(** The two passes of the counters on a record that expires between them:
    the record is counted as active and as expired. *)
Example summary_counts_a_record_twice :
  (summary ticking_clock [one_record (Some (ticking_clock 0)) []] empty_world).1
  = Returned (mkSummary 1 1 1 0).
Proof. vm_compute. reflexivity. Qed.


Definition two_calls : list (Call unit) :=
  [mkCall unit INFO "Added new URL form" None; mkCall unit WARN "URL not found for update" None].

(** X28, witness: two calls on a fresh logger. *)
Lemma log_keeps_last_thousand_witness :
  let l := mkLogger unit [] None 0 0 in
  let l' := logAll unit ticking_clock accepts_all two_calls l in
  logs unit l'
  = slice_last 1000 (logs unit l ++ entries_from unit ticking_clock (clock_calls unit l) two_calls) /\
  (length (logs unit l') <= 1000)%nat /\
  app_logs unit l' = Some (EncodedLogs unit (getLogs unit l')) /\
  clock_calls unit l' = (clock_calls unit l + length two_calls)%nat.
Proof.
  apply (log_keeps_last_thousand unit ticking_clock accepts_all two_calls
           (mkLogger unit [] None 0 0)).
  - reflexivity.
  - discriminate.
Defined.

(** X29, witness: two calls on a fresh logger in a browser that refuses every write. *)
Lemma log_refused_write_witness :
  let l := mkLogger unit [] None 0 0 in
  (forall type event data,
     log unit ticking_clock refuses_all type event data l
     = (Thrown QuotaExceededError,
        mkLogger unit
          (logs unit l ++ [LogEntry.mk (ticking_clock (clock_calls unit l)) type event data])
          (app_logs unit l) (S (clock_calls unit l)) (S (write_calls unit l)))) /\
  logs unit (logAll unit ticking_clock refuses_all two_calls l)
  = logs unit l ++ entries_from unit ticking_clock (clock_calls unit l) two_calls /\
  length (logs unit (logAll unit ticking_clock refuses_all two_calls l))
  = (length (logs unit l) + length two_calls)%nat /\
  app_logs unit (logAll unit ticking_clock refuses_all two_calls l) = app_logs unit l.
Proof.
  apply (log_refused_write_skips_the_cap unit ticking_clock refuses_all two_calls
           (mkLogger unit [] None 0 0)).
  reflexivity.
Defined.
